(** * Key system server: the key lifecycle of [POST /gerar], [POST /validar],
    [GET /status] and the hourly sweep [cleanExpiredKeys].

    The handlers are embedded as functions over the in-memory array [keys];
    everything a handler reads from outside (request body, clock, random
    bytes, the answer of the link shortener, whether the file write works)
    is an explicit argument, and everything it does to the outside (the call
    to the shortener, the write of keys.json) is recorded in an event log.

    Conventions:
    - clock readings ([Date.now()], integral milliseconds) and status codes
      are in [Z]; every [Date.now()] of a handler is an argument of its own;
    - the body fields [key], [monetizzyToken], [link] and the
      [shortened_url] of the shortener are strings or missing;
    - a handler touches [keys] in one synchronous stretch of code (after its
      last [await] that precedes the mutation, before the [await] of the
      write), so one request is one step on the array;
    - [console.log] output is left out. *)

From Stdlib Require Import ZArith NArith Lia.
From Stdlib Require String Ascii Strings.Byte.
From stdpp Require Import base decidable option numbers list.
Import String.StringSyntax.
Import Corelib.Init.Byte.

Local Open Scope Z_scope.

(** ** JavaScript strings

    A JavaScript string is a sequence of UTF-16 code units. *)

Abbreviation jsstring := (list N).

(** ASCII literals. *)
Definition lit (s : String.string) : jsstring :=
  map Ascii.N_of_ascii (String.list_ascii_of_string s).
Arguments lit s%_string_scope.

(** WhiteSpace and LineTerminator code points of ECMAScript, the characters
    [String.prototype.trim] strips. *)
Definition is_space (c : N) : bool :=
  (   (c =? 0x09) || (c =? 0x0A) || (c =? 0x0B) || (c =? 0x0C) || (c =? 0x0D)
   || (c =? 0x20) || (c =? 0xA0) || (c =? 0x1680)
   || ((0x2000 <=? c) && (c <=? 0x200A))
   || (c =? 0x2028) || (c =? 0x2029) || (c =? 0x202F) || (c =? 0x205F)
   || (c =? 0x3000) || (c =? 0xFEFF))%N.

Fixpoint trimStart (s : jsstring) : jsstring :=
  match s with
  | c :: s' => if is_space c then trimStart s' else s
  | [] => []
  end.

Definition trimEnd (s : jsstring) : jsstring := rev (trimStart (rev s)).

Definition trim (s : jsstring) : jsstring := trimEnd (trimStart s).

(** Truthiness of the values the handlers test with [!x] or [x && ...]. *)
Definition truthy_str (s : jsstring) : bool :=
  match s with [] => false | _ => true end.

Definition truthy_num (z : Z) : bool := negb (z =? 0).

(** A property that may be missing: [undefined] is falsy. *)
Definition truthy_field {A} (t : A → bool) (o : option A) : bool :=
  match o with Some a => t a | None => false end.

(** ** Key records

    The objects pushed by [POST /gerar] carry [key], [used], [createdAt],
    [shortLink], [originalLink]; [usedAt] is added by [POST /validar].
    keys.json written by the earlier drafts (server.js) holds objects with
    [key] and [used] only, hence the optional fields. *)

Record KeyRecord := mkKey {
  key : jsstring;
  used : bool;
  createdAt : option Z;
  usedAt : option Z;
  shortLink : option jsstring;
  originalLink : option jsstring
}.

#[global] Instance KeyRecord_eq_dec : EqDecision KeyRecord.
Proof. solve_decision. Defined.

(** [found.used = true; found.usedAt = now] *)
Definition mark_used (now : Z) (k : KeyRecord) : KeyRecord :=
  {| key := key k; used := true; createdAt := createdAt k;
     usedAt := Some now; shortLink := shortLink k;
     originalLink := originalLink k |}.

(** ** Effects *)

(** What a handler does to the outside world, in program order. *)
Inductive event :=
  | CallGateway (link : jsstring)            (* axios.post(.../shorten/link) *)
  | WriteFile (ks : list KeyRecord) (ok : bool). (* fs.writeJson(KEYS_FILE, keys) *)

(** The fields of a thrown error that the [catch] blocks inspect:
    [err.code] and [err.response?.status]. *)
Record js_error := mkErr {
  err_code : option jsstring;
  err_status : option Z
}.

(** [throw new Error('Falha ao salvar keys')]: neither field is set. *)
Definition save_error : js_error := mkErr None None.

(** [saveKeys]: writes the whole array; a failed write is rethrown as a
    plain [Error].  [disk_ok] says whether [fs.writeJson] succeeds. *)
Definition saveKeys (ks : list KeyRecord) (disk_ok : bool)
  : (js_error + unit) * list event :=
  (if disk_ok then inr tt else inl save_error, [WriteFile ks disk_ok]).

(** [loadKeys], run once at start.  [file] is what is on disk: nothing, a
    file that [fs.readJson] cannot read, or an array of records.  Every
    failure is caught and leaves [keys = []]. *)
Definition loadKeys (file : option (js_error + list KeyRecord))
    (disk_ok : bool) : list KeyRecord * list event :=
  match file with
  | Some (inr content) => (content, [])
  | Some (inl _) => ([], [])
  | None => ([], [WriteFile [] disk_ok])
  end.

(** The outcome of running a handler: the response sent (if any), the array
    [keys] afterwards and the events, oldest first. *)
Record outcome (R : Type) := mkOutcome {
  resp : R;
  keys_after : list KeyRecord;
  log : list event
}.
Arguments mkOutcome {R} _ _ _.
Arguments resp {R} _.
Arguments keys_after {R} _.
Arguments log {R} _.

(** ** POST /validar *)

Definition DAY_MS : Z := 24 * 60 * 60 * 1000.

(** The JSON bodies of /validar; the message text is given in the comment.
    The [usedAt] of the success body is a further clock reading rendered as
    ISO text, which is left out. *)
Inductive validar_body :=
  | KeyRequired      (* valid:false, "Key é obrigatória" *)
  | KeyNotFound      (* valid:false, "Key não encontrada" *)
  | KeyAlreadyUsed   (* valid:false, "Key já foi utilizada" *)
  | KeyExpired       (* valid:false, "Key expirada" *)
  | KeyValid         (* valid:true,  "Key válida!" *)
  | ValidarInternal. (* valid:false, "Erro interno do servidor" *)

#[global] Instance validar_body_eq_dec : EqDecision validar_body.
Proof. solve_decision. Defined.

(** [found.createdAt && (now - found.createdAt) > 24h] *)
Definition expired_at (now : Z) (k : KeyRecord) : bool :=
  match createdAt k with
  | Some c => truthy_num c && (DAY_MS <? now - c)
  | None => false
  end.

(** The handler.  [body_key] is [req.body.key] (a string, or missing);
    [t_check] is the clock read by the expiry test and [t_used] the one
    stored in [usedAt]. *)
Definition validar (ks : list KeyRecord) (body_key : option jsstring)
    (t_check t_used : Z) (disk_ok : bool) : outcome (Z * validar_body) :=
  if negb (truthy_field truthy_str body_key) then
    mkOutcome (400, KeyRequired) ks []
  else
    let k := trim (default [] body_key) in
    match list_find (λ r, key r = k) ks with
    | None => mkOutcome (404, KeyNotFound) ks []
    | Some (i, found) =>
        if used found then mkOutcome (200, KeyAlreadyUsed) ks []
        else if expired_at t_check found then mkOutcome (200, KeyExpired) ks []
        else
          let ks' := <[i := mark_used t_used found]> ks in
          match saveKeys ks' disk_ok with
          | (inr _, evs) => mkOutcome (200, KeyValid) ks' evs
          | (inl _, evs) => mkOutcome (500, ValidarInternal) ks' evs
          end
    end.

(** ** Key generation *)

(** One digit of [Number.prototype.toString(36)]: 0-9 then a-z. *)
Definition digit36 (d : N) : N := (if d <? 10 then 48 + d else 87 + d)%N.

Fixpoint digits36 (fuel : nat) (n : N) (acc : jsstring) : jsstring :=
  match fuel with
  | O => acc
  | S fuel' =>
      let acc' := digit36 (n mod 36) :: acc in
      if (n / 36 =? 0)%N then acc' else digits36 fuel' (n / 36) acc'
  end.

(** [z.toString(36)] for an integer [z]. *)
Definition toString36 (z : Z) : jsstring :=
  let n := Z.abs_N z in
  let ds := digits36 (S (N.to_nat (N.log2 n))) n [] in
  if z <? 0 then 45%N :: ds else ds.

(** One digit of [toString('hex').toUpperCase()]: 0-9 then A-F. *)
Definition hexdigit (d : N) : N := (if d <? 10 then 48 + d else 55 + d)%N.

Definition hex_upper (bs : list byte) : jsstring :=
  flat_map (λ b, [hexdigit (Byte.to_N b / 16); hexdigit (Byte.to_N b mod 16)])%N
    bs.

(** [generateKey]: [now] is the clock reading and [rnd] the bytes returned
    by [crypto.randomBytes(6)]. *)
Definition generateKey (now : Z) (rnd : list byte) : jsstring :=
  toString36 now ++ [45%N] ++ hex_upper rnd.

(** ** POST /gerar *)

Inductive gerar_body :=
  | Issued (k shortLink : jsstring) (* success:true, key, shortLink, createdAt *)
  | TokenRequired        (* "Token Monetizzy é obrigatório" *)
  | TokenInvalid         (* "Token inválido" *)
  | LinkRequired         (* "Link é obrigatório" *)
  | UrlInvalid           (* "URL inválida" *)
  | ShortenFailed        (* "Erro ao gerar link encurtado" *)
  | GatewayTimeout       (* "Timeout na API Monetizzy" *)
  | GatewayUnauthorized  (* "Token Monetizzy inválido ou expirado" *)
  | GerarInternal.       (* "Erro interno do servidor" *)

#[global] Instance gerar_body_eq_dec : EqDecision gerar_body.
Proof. solve_decision. Defined.

(** The [catch] block of the handler. *)
Definition gerar_catch (err : js_error) : Z * gerar_body :=
  if decide (err_code err = Some (lit "ECONNABORTED")) then (408, GatewayTimeout)
  else if decide (err_status err = Some 401) then (401, GatewayUnauthorized)
  else (500, GerarInternal).

(** What [await axios.post(...)] gives: it throws, or it returns a response
    whose [data?.shortened_url] may be missing. *)
Abbreviation axios_result := (js_error + option jsstring)%type.

(** The object literal that the handler pushes. *)
Definition keyObject (k : jsstring) (now : Z) (url l : jsstring) : KeyRecord :=
  {| key := k; used := false; createdAt := Some now; usedAt := None;
     shortLink := Some url; originalLink := Some l |}.

Section Server.

(** [process.env.MONETIZZY_TOKEN], and the WHATWG parser behind
    [new URL(string)], which [isValidUrl] wraps. *)
Context (MONETIZZY_TOKEN : jsstring) (isValidUrl : jsstring → bool).

(** The handler.  [tok] and [link] are [req.body.monetizzyToken] and
    [req.body.link]; [gw] is the answer of the shortener; [t_key] is the
    clock read by [generateKey], [rnd] its random bytes, and [t_created] the
    clock read for [createdAt]. *)
Definition gerar (ks : list KeyRecord) (tok link : option jsstring)
    (gw : axios_result) (t_key : Z) (rnd : list byte) (t_created : Z)
    (disk_ok : bool) : outcome (Z * gerar_body) :=
  if negb (truthy_field truthy_str tok) then
    mkOutcome (400, TokenRequired) ks []
  else if negb (bool_decide (tok = Some MONETIZZY_TOKEN)) then
    mkOutcome (403, TokenInvalid) ks []
  else if negb (truthy_field truthy_str link) then
    mkOutcome (400, LinkRequired) ks []
  else
    let l := default [] link in
    if negb (isValidUrl l) then mkOutcome (400, UrlInvalid) ks []
    else
      let call := [CallGateway (trim l)] in
      match gw with
      | inl err => mkOutcome (gerar_catch err) ks call
      | inr data =>
          if truthy_field truthy_str data then
            let url := default [] data in
            let k := generateKey t_key rnd in
            let ks' := ks ++ [keyObject k t_created url (trim l)] in
            match saveKeys ks' disk_ok with
            | (inr _, evs) => mkOutcome (200, Issued k url) ks' (call ++ evs)
            | (inl err, evs) => mkOutcome (gerar_catch err) ks' (call ++ evs)
            end
          else mkOutcome (400, ShortenFailed) ks call
      end.

End Server.
Arguments gerar MONETIZZY_TOKEN isValidUrl ks tok link gw t_key rnd t_created disk_ok : assert.

(** ** The sweep *)

(** The callback of [keys.filter] in [cleanExpiredKeys]. *)
Definition keeps (oneDayAgo : Z) (k : KeyRecord) : bool :=
  if used k then true
  else if negb (truthy_field truthy_num (createdAt k)) then true
  else oneDayAgo <? default 0 (createdAt k).

(** [cleanExpiredKeys]; the promise of [saveKeys] is not awaited and its
    failure is only logged. *)
Definition cleanExpiredKeys (ks : list KeyRecord) (now : Z) (disk_ok : bool)
  : outcome unit :=
  let oneDayAgo := now - DAY_MS in
  let initialCount := length ks in
  let ks' := filter (λ k, keeps oneDayAgo k = true) ks in
  if decide (length ks' ≠ initialCount)
  then mkOutcome tt ks' (snd (saveKeys ks' disk_ok))
  else mkOutcome tt ks' [].

(** ** GET /status *)

(** The JSON body (its [timestamp] is left out). *)
Record stats := mkStats {
  st_total : nat;
  st_used : nat;
  st_available : nat
}.

Definition status (ks : list KeyRecord) : outcome stats :=
  mkOutcome
    {| st_total := length ks;
       st_used := length (filter (λ k, used k = true) ks);
       st_available := length (filter (λ k, negb (used k) = true) ks) |}
    ks [].

(** ** The server as a transition system

    One request, or one tick of the hourly timer, with everything it reads
    from outside. *)

Inductive request :=
  | ReqGerar (tok link : option jsstring) (gw : axios_result)
             (t_key : Z) (rnd : list byte) (t_created : Z) (disk_ok : bool)
  | ReqValidar (body_key : option jsstring) (t_check t_used : Z)
               (disk_ok : bool)
  | Sweep (now : Z) (disk_ok : bool)
  | ReqStatus.

(** The clock readings of a request come in program order and none is
    earlier than [t], the last reading before it. *)
Definition clock_ok (t : Z) (req : request) : Prop :=
  match req with
  | ReqGerar _ _ _ t_key _ t_created _ => t ≤ t_key ∧ t_key ≤ t_created
  | ReqValidar _ t_check t_used _ => t ≤ t_check ∧ t_check ≤ t_used
  | Sweep now _ => t ≤ now
  | ReqStatus => True
  end.

Definition last_reading (t : Z) (req : request) : Z :=
  match req with
  | ReqGerar _ _ _ _ _ t_created _ => t_created
  | ReqValidar _ _ t_used _ => t_used
  | Sweep now _ => now
  | ReqStatus => t
  end.

Section Transitions.

Context (MONETIZZY_TOKEN : jsstring) (isValidUrl : jsstring → bool).

(** The array [keys] after serving [req]. *)
Definition step (ks : list KeyRecord) (req : request) : list KeyRecord :=
  match req with
  | ReqGerar tok link gw t_key rnd t_created disk_ok =>
      keys_after (gerar MONETIZZY_TOKEN isValidUrl ks tok link gw t_key rnd
                    t_created disk_ok)
  | ReqValidar body_key t_check t_used disk_ok =>
      keys_after (validar ks body_key t_check t_used disk_ok)
  | Sweep now disk_ok => keys_after (cleanExpiredKeys ks now disk_ok)
  | ReqStatus => keys_after (status ks)
  end.

(** The array after a sequence of requests. *)
Definition run (ks : list KeyRecord) (reqs : list request) : list KeyRecord :=
  foldl step ks reqs.

(** [reachable_by guard t ks]: starting from the empty store (no keys.json:
    [loadKeys None] leaves [keys = []]), some sequence of requests allowed by
    [guard] leads to the array [ks], the last clock reading being [t]. *)
Inductive reachable_by (guard : Z → list KeyRecord → request → Prop)
  : Z → list KeyRecord → Prop :=
  | reach_start t : reachable_by guard t []
  | reach_step t ks req :
      reachable_by guard t ks → guard t ks req →
      reachable_by guard (last_reading t req) (step ks req).

(** Requests served under a clock that never goes back. *)
Definition reachable_monotone : Z → list KeyRecord → Prop :=
  reachable_by (λ t _ req, clock_ok t req).

End Transitions.

(** ** The redeem operation as the specification words it

    Four outcomes in priority order, looked up by the supplied id, with the
    24 hour test on a present [createdAt]. *)

Inductive redeem_result := NotFound | InvalidUsed | InvalidExpired | Valid.

Definition redeem_spec (ks : list KeyRecord) (id : jsstring) (now : Z)
  : redeem_result * list KeyRecord :=
  match list_find (λ r, key r = id) ks with
  | None => (NotFound, ks)
  | Some (i, r) =>
      if used r then (InvalidUsed, ks)
      else if match createdAt r with
              | Some c => DAY_MS <? now - c
              | None => false
              end
      then (InvalidExpired, ks)
      else (Valid, <[i := mark_used now r]> ks)
  end.

(** The response that carries each outcome. *)
Definition render (r : redeem_result) : Z * validar_body :=
  match r with
  | NotFound => (404, KeyNotFound)
  | InvalidUsed => (200, KeyAlreadyUsed)
  | InvalidExpired => (200, KeyExpired)
  | Valid => (200, KeyValid)
  end.

(** [first_with k ks i r]: [r], at index [i], is the first record of [ks]
    whose id is [k]: the one [keys.find(x => x.key === k)] returns. *)
Definition first_with (k : jsstring) (ks : list KeyRecord) (i : nat)
    (r : KeyRecord) : Prop :=
  ks !! i = Some r ∧ key r = k ∧
  ∀ (j : nat) r', ks !! j = Some r' → (j < i)%nat → key r' ≠ k.

(** The record is past the 24 hours at [now], as /validar tests it. *)
Definition Expired (now : Z) (r : KeyRecord) : Prop :=
  ∃ c, createdAt r = Some c ∧ c ≠ 0 ∧ DAY_MS < now - c.

(** The id [k] has been redeemed: the record that a lookup of [k] finds is
    marked used. *)
Definition redeemed (k : jsstring) (ks : list KeyRecord) : Prop :=
  ∃ i r, first_with k ks i r ∧ used r = true.

(** How one request changes the array: not at all, by one push, by marking
    the record found, or by the sweep's filter. *)
Inductive change : list KeyRecord → request → list KeyRecord → Prop :=
  | change_none ks req : change ks req ks
  | change_push ks tok link gw t_key rnd t_created disk_ok url l :
      change ks (ReqGerar tok link gw t_key rnd t_created disk_ok)
        (ks ++ [keyObject (generateKey t_key rnd) t_created url l])
  | change_mark ks id t_check t_used disk_ok i r :
      id ≠ [] → first_with (trim id) ks i r → used r = false →
      ¬ Expired t_check r →
      change ks (ReqValidar (Some id) t_check t_used disk_ok)
        (<[i := mark_used t_used r]> ks)
  | change_sweep ks now disk_ok :
      change ks (Sweep now disk_ok)
        (filter (λ k, keeps (now - DAY_MS) k = true) ks).

(** The invariant of the [used]/[usedAt] pair. *)
Definition usedAt_consistent (r : KeyRecord) : Prop :=
  (used r = false → usedAt r = None)
  ∧ (used r = true →
       ∃ u c, usedAt r = Some u ∧ createdAt r = Some c ∧ c ≤ u).

(** A /gerar request passes the four checks made before the shortener is
    called: the token is there and is the configured one, the link is there
    and parses as a URL. *)
Definition accepted (MONETIZZY_TOKEN : jsstring) (isValidUrl : jsstring → bool)
    (tok link : option jsstring) (l : jsstring) : Prop :=
  tok = Some MONETIZZY_TOKEN ∧ MONETIZZY_TOKEN ≠ [] ∧ link = Some l ∧ l ≠ []
  ∧ isValidUrl l = true.

(** The record was created no later than the clock reading [t]. *)
Definition created_by (t : Z) (r : KeyRecord) : Prop :=
  ∃ c, createdAt r = Some c ∧ c ≤ t.

(** The ways the call to the shortener fails, with the response each one
    must get: a timeout (axios rejects with [code] ECONNABORTED and no
    response), an HTTP 401 from the shortener, any other error, and an
    answer that lacks [shortened_url]. *)
Inductive gateway_failure : axios_result → Z * gerar_body → Prop :=
  | failure_timeout err :
      err_code err = Some (lit "ECONNABORTED") →
      gateway_failure (inl err) (408, GatewayTimeout)
  | failure_unauthorized err :
      err_code err ≠ Some (lit "ECONNABORTED") → err_status err = Some 401 →
      gateway_failure (inl err) (401, GatewayUnauthorized)
  | failure_other err :
      err_code err ≠ Some (lit "ECONNABORTED") → err_status err ≠ Some 401 →
      gateway_failure (inl err) (500, GerarInternal)
  | failure_no_field data :
      data = None ∨ data = Some [] →
      gateway_failure (inr data) (400, ShortenFailed).

(** Reading a base 36 numeral back, to state that [toString36] renders the
    whole number. *)
Definition undigit36 (c : N) : N := (if c <? 58 then c - 48 else c - 87)%N.

Definition value36 (s : jsstring) : N :=
  foldl (λ v c, v * 36 + undigit36 c)%N 0%N s.

(** ** The alphabet of generated ids *)

(** [0-9a-z], the digits of base 36. *)
Definition is_base36 (c : N) : bool :=
  ((48 <=? c) && (c <=? 57) || (97 <=? c) && (c <=? 122))%N.

(** [0-9A-F]. *)
Definition is_hex_upper (c : N) : bool :=
  ((48 <=? c) && (c <=? 57) || (65 <=? c) && (c <=? 70))%N.

(** ** What is on disk

    The events of a request, and of a sequence of requests served one after
    the other. *)
Definition events (MONETIZZY_TOKEN : jsstring) (isValidUrl : jsstring → bool)
    (ks : list KeyRecord) (req : request) : list event :=
  match req with
  | ReqGerar tok link gw t_key rnd t_created disk_ok =>
      log (gerar MONETIZZY_TOKEN isValidUrl ks tok link gw t_key rnd
             t_created disk_ok)
  | ReqValidar body_key t_check t_used disk_ok =>
      log (validar ks body_key t_check t_used disk_ok)
  | Sweep now disk_ok => log (cleanExpiredKeys ks now disk_ok)
  | ReqStatus => log (status ks)
  end.

Fixpoint trace (MONETIZZY_TOKEN : jsstring) (isValidUrl : jsstring → bool)
    (ks : list KeyRecord) (reqs : list request) : list event :=
  match reqs with
  | [] => []
  | req :: reqs =>
      events MONETIZZY_TOKEN isValidUrl ks req
      ++ trace MONETIZZY_TOKEN isValidUrl
           (step MONETIZZY_TOKEN isValidUrl ks req) reqs
  end.

(** The array of the last write that succeeded, if there is one.  (What a
    failed [fs.writeJson] leaves in the file is not modelled.) *)
Definition last_written (evs : list event) : option (list KeyRecord) :=
  foldl (λ acc e, match e with
                  | WriteFile ks true => Some ks
                  | _ => acc
                  end) None evs.

Definition write_ok (e : event) : Prop :=
  match e with WriteFile _ ok => ok = true | CallGateway _ => True end.

(** ** The first draft of the server (server.js)

    Its records are [{key, used}]; /validar compares the key as sent, has no
    expiry and stores no [usedAt]; [saveKeys] is synchronous and its
    exception, thrown outside any [try], is answered 500 by Express. *)

Definition hexdigit_lower (d : N) : N := (if d <? 10 then 48 + d else 87 + d)%N.

Definition hex_lower (bs : list byte) : jsstring :=
  flat_map (λ b, [hexdigit_lower (Byte.to_N b / 16);
                  hexdigit_lower (Byte.to_N b mod 16)])%N bs.

(** [generateKey] of the draft: two draws of [crypto.randomBytes(4)]. *)
Definition generateKey_draft (rnd1 rnd2 : list byte) : jsstring :=
  hex_lower rnd1 ++ [45%N] ++ hex_lower rnd2.

Inductive draft_body :=
  | DraftNotFound     (* valid:false *)
  | DraftUsed         (* valid:false, "Key já usada" *)
  | DraftValid        (* valid:true *)
  | DraftError.       (* the error page of Express *)

(** [found.used = true] *)
Definition mark_used_draft (k : KeyRecord) : KeyRecord :=
  {| key := key k; used := true; createdAt := createdAt k;
     usedAt := usedAt k; shortLink := shortLink k;
     originalLink := originalLink k |}.

(** /validar of the draft.  A missing [key] is compared as [undefined] and
    matches no record. *)
Definition validar_draft (ks : list KeyRecord) (body_key : option jsstring)
    (disk_ok : bool) : outcome (Z * draft_body) :=
  match body_key with
  | None => mkOutcome (404, DraftNotFound) ks []
  | Some k =>
      match list_find (λ r, key r = k) ks with
      | None => mkOutcome (404, DraftNotFound) ks []
      | Some (i, found) =>
          if used found then mkOutcome (200, DraftUsed) ks []
          else
            let ks' := <[i := mark_used_draft found]> ks in
            match saveKeys ks' disk_ok with
            | (inr _, evs) => mkOutcome (200, DraftValid) ks' evs
            | (inl _, evs) => mkOutcome (500, DraftError) ks' evs
            end
      end
  end.

(** A record without the [usedAt] that only the full server stores. *)
Definition without_usedAt (k : KeyRecord) : KeyRecord :=
  {| key := key k; used := used k; createdAt := createdAt k; usedAt := None;
     shortLink := shortLink k; originalLink := originalLink k |}.

(** The answers of the full server that the draft also has. *)
Definition draft_answer (b : Z * validar_body) : option (Z * draft_body) :=
  match b with
  | (404, KeyNotFound) => Some (404, DraftNotFound)
  | (200, KeyAlreadyUsed) => Some (200, DraftUsed)
  | (200, KeyValid) => Some (200, DraftValid)
  | (500, ValidarInternal) => Some (500, DraftError)
  | _ => None
  end.

(** ** The draws of [generateKey]

    The clock reading and the random bytes that [generateKey] had when the
    request pushed a record (it is called on no other path), and those of a
    sequence of requests served one after the other from [ks]. *)
Definition draw (MONETIZZY_TOKEN : jsstring) (isValidUrl : jsstring → bool)
    (ks : list KeyRecord) (req : request) : list (Z * list byte) :=
  match req with
  | ReqGerar tok link gw t_key rnd t_created disk_ok =>
      if decide (step MONETIZZY_TOKEN isValidUrl ks req = ks) then []
      else [(t_key, rnd)]
  | _ => []
  end.

Fixpoint draws (MONETIZZY_TOKEN : jsstring) (isValidUrl : jsstring → bool)
    (ks : list KeyRecord) (reqs : list request) : list (Z * list byte) :=
  match reqs with
  | [] => []
  | req :: reqs =>
      draw MONETIZZY_TOKEN isValidUrl ks req
      ++ draws MONETIZZY_TOKEN isValidUrl
           (step MONETIZZY_TOKEN isValidUrl ks req) reqs
  end.

(** * Properties *)

(** ** Trimming *)

Lemma trimStart_nonspace c s : is_space c = false → trimStart (c :: s) = c :: s.
Proof. intros H. simpl. by rewrite H. Qed.

Lemma trimStart_head s :
  trimStart s = [] ∨ ∃ c s', trimStart s = c :: s' ∧ is_space c = false.
Proof.
  induction s as [|c s IH]; simpl; [by left|].
  destruct (is_space c) eqn:E; [done|]. right. eauto.
Qed.

Lemma trimStart_idemp s : trimStart (trimStart s) = trimStart s.
Proof.
  destruct (trimStart_head s) as [->|(c & s' & -> & H)]; [done|].
  by apply trimStart_nonspace.
Qed.

Lemma trimStart_snoc s c :
  is_space c = false → ∃ s', trimStart (s ++ [c]) = s' ++ [c].
Proof.
  intros H. induction s as [|d s IH]; simpl.
  - rewrite H. by exists [].
  - destruct (is_space d); [done|]. by exists (d :: s).
Qed.

Lemma trimEnd_idemp s : trimEnd (trimEnd s) = trimEnd s.
Proof. unfold trimEnd. by rewrite rev_involutive, trimStart_idemp. Qed.

Lemma trimEnd_nil : trimEnd [] = [].
Proof. done. Qed.

(** Trimming the end leaves a first character that is no space in place. *)
Lemma trimEnd_head c s :
  is_space c = false → ∃ s', trimEnd (c :: s) = c :: s'.
Proof.
  intros H. unfold trimEnd. simpl.
  destruct (trimStart_snoc (rev s) c H) as [s' ->].
  rewrite rev_app_distr. simpl. eauto.
Qed.

Lemma trimEnd_snoc s c : is_space c = false → trimEnd (s ++ [c]) = s ++ [c].
Proof.
  intros H. unfold trimEnd. rewrite rev_app_distr. simpl.
  rewrite H. simpl. by rewrite rev_involutive.
Qed.

Lemma trim_idemp s : trim (trim s) = trim s.
Proof.
  unfold trim.
  destruct (trimStart_head s) as [->|(c & s' & -> & H)]; [done|].
  destruct (trimEnd_head c s' H) as [s'' E]. rewrite E.
  rewrite (trimStart_nonspace _ _ H), <- E. apply trimEnd_idemp.
Qed.

(** A string that starts and ends with characters that are no spaces is
    left as it is. *)
Lemma trim_fixed c s d :
  is_space c = false → is_space d = false → trim (c :: s ++ [d]) = c :: s ++ [d].
Proof.
  intros Hc Hd. unfold trim. rewrite (trimStart_nonspace _ _ Hc).
  apply (trimEnd_snoc (c :: s) d Hd).
Qed.

Lemma truthy_str_true s : truthy_str s = true ↔ s ≠ [].
Proof. by destruct s. Qed.

(** ** Start *)

Lemma loadKeys_no_file disk_ok : fst (loadKeys None disk_ok) = [].
Proof. done. Qed.

(** ** POST /validar *)

Lemma first_with_find k ks i r :
  list_find (λ x, key x = k) ks = Some (i, r) ↔ first_with k ks i r.
Proof. unfold first_with. by rewrite list_find_Some. Qed.

Lemma first_with_unique k ks i r i' r' :
  first_with k ks i r → first_with k ks i' r' → i = i' ∧ r = r'.
Proof.
  intros H%first_with_find H'%first_with_find. by simplify_eq.
Qed.

Lemma expired_at_true now r : expired_at now r = true ↔ Expired now r.
Proof.
  unfold expired_at, Expired, truthy_num. split.
  - destruct (createdAt r) as [c|]; [|done].
    intros [H1 H2]%andb_true_iff. exists c.
    apply negb_true_iff, Z.eqb_neq in H1. apply Z.ltb_lt in H2. done.
  - intros (c & -> & H1 & H2). apply andb_true_iff. split.
    + by apply negb_true_iff, Z.eqb_neq.
    + by apply Z.ltb_lt.
Qed.

Lemma expired_at_false now r : expired_at now r = false ↔ ¬ Expired now r.
Proof. rewrite <- expired_at_true. by destruct (expired_at now r). Qed.

(** A missing or empty key is rejected before any lookup. *)
Lemma validar_missing ks body t_check t_used disk_ok :
  body = None ∨ body = Some [] →
  validar ks body t_check t_used disk_ok = mkOutcome (400, KeyRequired) ks [].
Proof. by intros [-> | ->]. Qed.

(** A [createdAt] of 0 is falsy: such a record never expires. *)
Lemma createdAt_zero_never_expires now r :
  createdAt r = Some 0 → expired_at now r = false.
Proof. unfold expired_at. by intros ->. Qed.

Section Validar.

Context (ks : list KeyRecord) (id : jsstring) (t_check t_used : Z)
        (disk_ok : bool).
Context (Hid : id ≠ []).

Lemma validar_lookup :
  validar ks (Some id) t_check t_used disk_ok =
  match list_find (λ r, key r = trim id) ks with
  | None => mkOutcome (404, KeyNotFound) ks []
  | Some (i, found) =>
      if used found then mkOutcome (200, KeyAlreadyUsed) ks []
      else if expired_at t_check found then mkOutcome (200, KeyExpired) ks []
      else
        let ks' := <[i := mark_used t_used found]> ks in
        mkOutcome (if disk_ok then (200, KeyValid) else (500, ValidarInternal))
          ks' [WriteFile ks' disk_ok]
  end.
Proof.
  unfold validar. destruct id as [|c s]; [done|]. simpl.
  repeat case_match; simplify_eq/=; try done.
Qed.

Lemma validar_not_found :
  Forall (λ r, key r ≠ trim id) ks →
  validar ks (Some id) t_check t_used disk_ok
  = mkOutcome (404, KeyNotFound) ks [].
Proof.
  intros H. rewrite validar_lookup.
  apply (list_find_None (λ r, key r = trim id)) in H. by rewrite H.
Qed.

Lemma validar_used i r :
  first_with (trim id) ks i r → used r = true →
  validar ks (Some id) t_check t_used disk_ok
  = mkOutcome (200, KeyAlreadyUsed) ks [].
Proof.
  intros H%first_with_find Hu. rewrite validar_lookup, H. by rewrite Hu.
Qed.

Lemma validar_expired i r :
  first_with (trim id) ks i r → used r = false → Expired t_check r →
  validar ks (Some id) t_check t_used disk_ok
  = mkOutcome (200, KeyExpired) ks [].
Proof.
  intros H%first_with_find Hu He%expired_at_true.
  rewrite validar_lookup, H. by rewrite Hu, He.
Qed.

Lemma validar_marks i r :
  first_with (trim id) ks i r → used r = false → ¬ Expired t_check r →
  validar ks (Some id) t_check t_used disk_ok
  = mkOutcome (if disk_ok then (200, KeyValid) else (500, ValidarInternal))
      (<[i := mark_used t_used r]> ks)
      [WriteFile (<[i := mark_used t_used r]> ks) disk_ok].
Proof.
  intros H%first_with_find Hu He%expired_at_false.
  rewrite validar_lookup, H. by rewrite Hu, He.
Qed.

(** Either no record has the id or there is a first one. *)
Lemma first_with_cases k :
  Forall (λ r, key r ≠ k) ks ∨ ∃ i r, first_with k ks i r.
Proof.
  destruct (list_find (λ r, key r = k) ks) as [[i r]|] eqn:E.
  - right. exists i, r. by apply first_with_find.
  - left. by apply (list_find_None (λ r, key r = k)).
Qed.

End Validar.

(** On its intended inputs the handler is the specification's redeem: a
    non-empty id without surrounding spaces, no record with a [createdAt] of
    0, one clock reading, a file write that works. *)
Lemma validar_refines_redeem_spec ks id now :
  id ≠ [] → trim id = id → Forall (λ r, createdAt r ≠ Some 0) ks →
  let o := validar ks (Some id) now now true in
  resp o = render (fst (redeem_spec ks id now))
  ∧ keys_after o = snd (redeem_spec ks id now).
Proof.
  intros Hid Htrim Hall o. subst o. rewrite validar_lookup by done.
  unfold redeem_spec. rewrite Htrim.
  destruct (list_find _ ks) as [[i r]|] eqn:E; [|by split].
  destruct (used r); [by split|].
  apply list_find_Some in E as (Hi & _).
  pose proof (Forall_lookup_1 _ _ _ _ Hall Hi) as Hc.
  unfold expired_at, truthy_num.
  destruct (createdAt r) as [c|] eqn:Ec; [|by split].
  destruct (Z.eqb_spec c 0) as [->|_]; [done|]. simpl.
  by destruct (DAY_MS <? now - c).
Qed.

(** C1 (as amended). For every array [ks] and every non-empty key string
    [id], /validar looks up [trim id] and answers in this priority order:
    no record has that id: 404 not found, nothing changed, nothing written;
    the first record with that id is used: "already used", nothing changed;
    it is unused and has a non-zero [createdAt] more than 24 hours before
    the clock: "expired", nothing changed and the record is still there;
    otherwise the record gets [used = true] and [usedAt = t_used], the whole
    array is written once, and the answer is "valid" if the write succeeds
    and a 500 if it fails.  One of these cases always applies. *)
Theorem validar_priority_order ks id t_check t_used disk_ok :
  id ≠ [] →
  let o := validar ks (Some id) t_check t_used disk_ok in
  (Forall (λ r, key r ≠ trim id) ks → o = mkOutcome (404, KeyNotFound) ks [])
  ∧ (∀ i r, first_with (trim id) ks i r →
       (used r = true → o = mkOutcome (200, KeyAlreadyUsed) ks [])
     ∧ (used r = false → Expired t_check r →
          o = mkOutcome (200, KeyExpired) ks [])
     ∧ (used r = false → ¬ Expired t_check r →
          keys_after o = <[i := mark_used t_used r]> ks
          ∧ log o = [WriteFile (keys_after o) disk_ok]
          ∧ resp o = if disk_ok then (200, KeyValid)
                     else (500, ValidarInternal)))
  ∧ (Forall (λ r, key r ≠ trim id) ks ∨ ∃ i r, first_with (trim id) ks i r).
Proof.
  intros Hid o. subst o. split_and!.
  - by apply validar_not_found.
  - intros i r Hf. split_and!.
    + intros Hu. by apply (validar_used ks id _ _ _ Hid i r).
    + intros Hu He. by apply (validar_expired ks id _ _ _ Hid i r).
    + intros Hu He. by rewrite (validar_marks ks id _ _ _ Hid i r Hf Hu He).
  - apply first_with_cases.
Qed.

Lemma validar_priority_order_witness :
  let k0 := mkKey (lit "k") false (Some 1000) None None None in
  validar [k0] (Some (lit " k ")) 2000 2001 true
  = mkOutcome (200, KeyValid) [mark_used 2001 k0]
      [WriteFile [mark_used 2001 k0] true].
Proof.
  intros k0.
  destruct (validar_priority_order [k0] (lit " k ") 2000 2001 true)
    as (_ & H & _); [done|].
  destruct (H 0%nat k0) as (_ & _ & H3).
  { split_and!; [done|done|]. intros j r' _ Hj. lia. }
  destruct H3 as (H4 & H5 & H6); [done| |].
  { intros (c & Hc & _ & Hlt). simplify_eq/=. vm_compute in Hlt. done. }
  destruct (validar _ _ _ _ _) as [re ka lo]. simpl in *. by subst.
Defined.

(** C1 (as stated) fails: an unused, unexpired record whose id is supplied,
    with the file write failing, is answered by a 500, which is none of the
    four outcomes; the specification's redeem says Valid here. *)
Lemma validar_save_failure_fifth_outcome :
  let k0 := mkKey (lit "k") false (Some 1000) None None None in
  let o := validar [k0] (Some (lit "k")) 2000 2001 false in
  fst (redeem_spec [k0] (lit "k") 2000) = Valid
  ∧ resp o = (500, ValidarInternal)
  ∧ ∀ res, resp o ≠ render res.
Proof.
  intros k0 o. split_and!; [done|done|]. intros res. by destruct res.
Qed.

(** C10 (as amended). For every key string [k] that is empty or has a
    character that is no space, /validar answers [k] exactly as it answers
    [trim k]: same response, same array, same write; and any two non-empty
    strings with the same [trim], whatever [k] is, are answered alike. *)
Theorem validar_trims ks k t_check t_used disk_ok :
  ((k = [] ∨ trim k ≠ []) →
   validar ks (Some k) t_check t_used disk_ok
   = validar ks (Some (trim k)) t_check t_used disk_ok)
  ∧ (∀ k', k ≠ [] → k' ≠ [] → trim k = trim k' →
       validar ks (Some k) t_check t_used disk_ok
       = validar ks (Some k') t_check t_used disk_ok).
Proof.
  split.
  - intros [-> | H]; [done|].
    assert (k ≠ []) by (by intros ->).
    rewrite !validar_lookup by done. by rewrite trim_idemp.
  - intros k' Hk Hk' E. rewrite !validar_lookup by done. by rewrite E.
Qed.

Lemma validar_trims_witness :
  let k0 := mkKey (lit "k") false (Some 1000) None None None in
  validar [k0] (Some (lit "  k ")) 2000 2001 true
  = validar [k0] (Some (lit "k")) 2000 2001 true
  ∧ validar [k0] (Some (lit " ")) 2000 2001 true
    = validar [k0] (Some (lit "   ")) 2000 2001 true.
Proof.
  intros k0. split.
  - destruct (validar_trims [k0] (lit "  k ") 2000 2001 true) as [H _].
    apply H. right. by vm_compute.
  - destruct (validar_trims [k0] (lit " ") 2000 2001 true) as [_ H].
    apply (H (lit "   ")); [by vm_compute|by vm_compute|reflexivity].
Defined.

(** C10 (as stated) fails on a key made of spaces only: it is looked up
    (as the empty id) and answered 404, while its trimmed form, the empty
    string, is rejected with 400 before any lookup. *)
Lemma validar_blank_key_differs :
  resp (validar [] (Some (lit " ")) 2000 2001 true) = (404, KeyNotFound)
  ∧ resp (validar [] (Some (trim (lit " "))) 2000 2001 true)
    = (400, KeyRequired).
Proof. by split. Qed.

(** ** POST /gerar *)

Lemma gerar_catch_save_error : gerar_catch save_error = (500, GerarInternal).
Proof. done. Qed.

Lemma accepted_dec (MONETIZZY_TOKEN : jsstring) (isValidUrl : jsstring → bool)
    (tok link : option jsstring) :
  (∃ l, accepted MONETIZZY_TOKEN isValidUrl tok link l)
  ∨ (∀ l, ¬ accepted MONETIZZY_TOKEN isValidUrl tok link l).
Proof.
  unfold accepted.
  destruct (decide (tok = Some MONETIZZY_TOKEN)) as [Ht|Ht];
    [|right; intros l' (? & _); contradiction].
  destruct (decide (MONETIZZY_TOKEN = [])) as [Hm|Hm];
    [right; intros l' (_ & ? & _); contradiction|].
  destruct link as [l|]; [|right; intros l' (_ & _ & ? & _); discriminate].
  destruct (decide (l = [])) as [Hl|Hl];
    [right; intros l' (_ & _ & ? & ? & _); congruence|].
  destruct (isValidUrl l) eqn:E; [left; by exists l|right].
  intros l' (_ & _ & ? & _ & ?). congruence.
Qed.

(** A request that is not accepted is answered 400 or 403 with no effect. *)
Lemma gerar_rejected MONETIZZY_TOKEN isValidUrl ks tok link gw t_key rnd
    t_created disk_ok :
  let o := gerar MONETIZZY_TOKEN isValidUrl ks tok link gw t_key rnd
             t_created disk_ok in
  (∀ l, ¬ accepted MONETIZZY_TOKEN isValidUrl tok link l) →
  keys_after o = ks ∧ log o = [] ∧
  resp o ∈ [(400, TokenRequired); (403, TokenInvalid); (400, LinkRequired);
            (400, UrlInvalid)].
Proof.
  intros o H. subst o. unfold gerar.
  assert (∀ b : Z * gerar_body,
    b ∈ [(400, TokenRequired); (403, TokenInvalid); (400, LinkRequired);
         (400, UrlInvalid)] →
    keys_after (mkOutcome b ks []) = ks ∧ log (mkOutcome b ks []) = [] ∧
    resp (mkOutcome b ks []) ∈
      [(400, TokenRequired); (403, TokenInvalid); (400, LinkRequired);
       (400, UrlInvalid)]) as Hrej by done.
  destruct tok as [[|c t]|]; simpl;
    [apply Hrej; rewrite !elem_of_cons; auto| |
     apply Hrej; rewrite !elem_of_cons; auto].
  case_bool_decide as Htok; simpl;
    [|apply Hrej; rewrite !elem_of_cons; auto].
  destruct link as [[|d l]|]; simpl;
    [apply Hrej; rewrite !elem_of_cons; auto| |
     apply Hrej; rewrite !elem_of_cons; auto].
  destruct (isValidUrl (d :: l)) eqn:Eu; simpl;
    [|apply Hrej; rewrite !elem_of_cons; auto 10].
  exfalso. apply (H (d :: l)). unfold accepted. by simplify_eq.
Qed.

(** An accepted request calls the shortener with the trimmed link; what
    follows depends on its answer and on the file write. *)
Lemma gerar_accepted MONETIZZY_TOKEN isValidUrl ks tok link gw t_key rnd
    t_created disk_ok l :
  accepted MONETIZZY_TOKEN isValidUrl tok link l →
  gerar MONETIZZY_TOKEN isValidUrl ks tok link gw t_key rnd t_created disk_ok
  = match gw with
    | inl err => mkOutcome (gerar_catch err) ks [CallGateway (trim l)]
    | inr data =>
        if truthy_field truthy_str data then
          let url := default [] data in
          let k := generateKey t_key rnd in
          let ks' := ks ++ [keyObject k t_created url (trim l)] in
          mkOutcome (if disk_ok then (200, Issued k url)
                     else (500, GerarInternal))
            ks' [CallGateway (trim l); WriteFile ks' disk_ok]
        else mkOutcome (400, ShortenFailed) ks [CallGateway (trim l)]
    end.
Proof.
  unfold accepted. intros (-> & Ht & -> & Hl & Hu). unfold gerar.
  destruct MONETIZZY_TOKEN as [|c t]; [done|].
  destruct l as [|d l]; [done|]. simpl.
  rewrite bool_decide_eq_true_2 by done. simpl. rewrite Hu. simpl.
  destruct gw as [err|data]; [done|].
  destruct (truthy_field truthy_str data); [|done].
  by destruct disk_ok.
Qed.

(** ** The sweep *)

Lemma keeps_true oneDayAgo r :
  keeps oneDayAgo r = true ↔
  used r = true ∨ createdAt r = None ∨ createdAt r = Some 0
  ∨ ∃ c, createdAt r = Some c ∧ oneDayAgo < c.
Proof.
  unfold keeps, truthy_num. destruct (used r); [by intuition|].
  destruct (createdAt r) as [c|]; simpl; [|by intuition].
  destruct (Z.eqb_spec c 0) as [->|Hc]; simpl; [by intuition|].
  rewrite Z.ltb_lt. split.
  - intros Hlt. do 3 right. by exists c.
  - intros [?|[?|[?|(c' & ? & ?)]]]; simplify_eq; done.
Qed.

Lemma cleanExpiredKeys_keys ks now disk_ok :
  keys_after (cleanExpiredKeys ks now disk_ok)
  = filter (λ k, keeps (now - DAY_MS) k = true) ks.
Proof. unfold cleanExpiredKeys. by case_decide. Qed.

(** A filter keeps the length exactly when it keeps every element. *)
Lemma length_filter_eq {A} (P : A → Prop) `{∀ x, Decision (P x)} (l : list A) :
  length (filter P l) = length l ↔ Forall P l.
Proof.
  induction l as [|x l IH].
  - split; [constructor|done].
  - rewrite filter_cons. destruct (decide (P x)) as [HP|HP]; simpl.
    + rewrite Forall_cons. split.
      * intros E. split; [done|]. apply IH. lia.
      * intros [_ E%IH]. lia.
    + split.
      * intros E. pose proof (length_filter P l). lia.
      * intros [? _]%Forall_cons. done.
Qed.

(** ** Single steps *)

Lemma step_change MONETIZZY_TOKEN isValidUrl ks req :
  change ks req (step MONETIZZY_TOKEN isValidUrl ks req).
Proof.
  destruct req as [tok link gw t_key rnd t_created ok
                  | body t_check t_used ok | now ok | ]; simpl.
  - destruct (accepted_dec MONETIZZY_TOKEN isValidUrl tok link) as [[l Hl]|Hn].
    + rewrite (gerar_accepted _ _ _ _ _ _ _ _ _ _ l Hl).
      destruct gw as [err|data]; simpl; [constructor|].
      destruct (truthy_field truthy_str data); simpl; constructor.
    + destruct (gerar_rejected _ _ ks _ _ gw t_key rnd t_created ok Hn)
        as (-> & _). constructor.
  - destruct body as [id|]; [|constructor].
    destruct (decide (id = [])) as [->|Hid]; [constructor|].
    rewrite validar_lookup by done.
    destruct (list_find _ ks) as [[i r]|] eqn:E; [|constructor].
    apply first_with_find in E.
    destruct (used r) eqn:Eu; [constructor|].
    destruct (expired_at t_check r) eqn:Ee; [constructor|]. simpl.
    apply change_mark; [done..|]. by apply expired_at_false.
  - rewrite cleanExpiredKeys_keys. constructor.
  - constructor.
Qed.

(** Used records stay, as they are, through every change. *)
Lemma change_used_kept ks req ks' r :
  change ks req ks' → r ∈ ks → used r = true → r ∈ ks'.
Proof.
  intros Hc Hin Hu. destruct Hc as [| |ks id t_check t_used ok i r0 _ Hf Hu0 _|].
  - done.
  - apply elem_of_app. by left.
  - apply list_elem_of_lookup in Hin as [j Hj].
    destruct Hf as (Hi & _).
    assert (i ≠ j) by (intros ->; congruence).
    apply list_elem_of_lookup. exists j. by rewrite list_lookup_insert_ne.
  - apply list_elem_of_filter. split; [|done].
    apply keeps_true. by left.
Qed.

Lemma list_find_filter_keep {A} (P Q : A → Prop)
    `{∀ x, Decision (P x)} `{∀ x, Decision (Q x)} (l : list A) i r :
  list_find P l = Some (i, r) → Q r →
  ∃ i', list_find P (filter Q l) = Some (i', r).
Proof.
  revert i. induction l as [|x l IH]; intros i; [done|].
  rewrite filter_cons. simpl. destruct (decide (P x)) as [HP|HP].
  - intros [= <- <-] HQ. rewrite decide_True by done. simpl.
    rewrite decide_True by done. eauto.
  - destruct (list_find P l) as [[i0 r0]|] eqn:E; [|done]. simpl.
    intros [= <- <-] HQ. destruct (IH i0 eq_refl HQ) as [i' Hi'].
    destruct (decide (Q x)); [|eauto]. simpl.
    rewrite decide_False by done. rewrite Hi'. simpl. eauto.
Qed.

(** A redeemed id stays redeemed through every change. *)
Lemma change_redeemed ks req ks' k :
  change ks req ks' → redeemed k ks → redeemed k ks'.
Proof.
  intros Hc (j & r & (Hj & Hk & Hfirst) & Hu).
  destruct Hc as [| |ks id t_check t_used ok i r0 _ Hf Hu0 _|ks now ok].
  - by exists j, r.
  - exists j, r. split; [|done]. split_and!; [|done|].
    + by apply lookup_app_l_Some.
    + intros j' r' Hj' Hlt. apply (Hfirst j' r'); [|done].
      rewrite lookup_app_l in Hj'; [done|].
      apply lookup_lt_Some in Hj. lia.
  - destruct Hf as (Hi & Hki & _).
    assert (i ≠ j) by (intros ->; congruence).
    exists j, r. split; [|done]. split_and!; [|done|].
    + by rewrite list_lookup_insert_ne.
    + intros j' r' Hj' Hlt.
      apply list_lookup_insert_Some in Hj' as [(-> & <- & _)|(_ & Hj')].
      * simpl. by apply (Hfirst j' r0).
      * by apply (Hfirst j' r').
  - assert (list_find (λ x, key x = k) ks = Some (j, r)) as Hfind
      by (by apply first_with_find).
    destruct (list_find_filter_keep (λ x, key x = k)
                (λ x, keeps (now - DAY_MS) x = true) ks j r Hfind) as [j' Hj'].
    { apply keeps_true. by left. }
    exists j', r. split; [|done]. by apply first_with_find.
Qed.

Lemma validar_redeemed ks id t_check t_used disk_ok :
  id ≠ [] → redeemed (trim id) ks →
  validar ks (Some id) t_check t_used disk_ok
  = mkOutcome (200, KeyAlreadyUsed) ks [].
Proof. intros Hid (i & r & Hf & Hu). by apply (validar_used _ _ _ _ _ Hid i r). Qed.

Lemma mark_redeemed ks k i r now :
  first_with k ks i r → redeemed k (<[i := mark_used now r]> ks).
Proof.
  intros (Hi & Hk & Hfirst). exists i, (mark_used now r).
  split; [|done]. split_and!; [|done|].
  - apply list_lookup_insert_eq. by apply lookup_lt_Some in Hi.
  - intros j r' Hj Hlt. rewrite list_lookup_insert_ne in Hj by lia.
    by apply (Hfirst j r').
Qed.

Lemma run_redeemed MONETIZZY_TOKEN isValidUrl k reqs ks :
  redeemed k ks → redeemed k (run MONETIZZY_TOKEN isValidUrl ks reqs).
Proof.
  unfold run. revert ks.
  induction reqs as [|req reqs IH]; intros ks H; [done|]. simpl.
  apply IH. eapply change_redeemed; [apply step_change|done].
Qed.

(** ** Generated ids *)

Lemma is_space_range c : is_space c = true → (c < 33 ∨ 160 ≤ c)%N.
Proof.
  unfold is_space. rewrite !orb_true_iff, !andb_true_iff, !N.eqb_eq, !N.leb_le.
  intros H. lia.
Qed.

Lemma digit36_nonspace m : is_space (digit36 (m mod 36)) = false.
Proof.
  destruct (is_space _) eqn:E; [|done]. apply is_space_range in E.
  unfold digit36 in E. assert (m mod 36 < 36)%N as H by (by apply N.mod_lt).
  revert E H. generalize (m mod 36)%N. intros d.
  destruct (N.ltb_spec d 10); intros E H36; exfalso; lia.
Qed.

Lemma hexdigit_nonspace m : is_space (hexdigit (m mod 16)) = false.
Proof.
  destruct (is_space _) eqn:E; [|done]. apply is_space_range in E.
  unfold hexdigit in E. assert (m mod 16 < 16)%N as H by (by apply N.mod_lt).
  revert E H. generalize (m mod 16)%N. intros d.
  destruct (N.ltb_spec d 10); intros E H16; exfalso; lia.
Qed.

Lemma digits36_head fuel n acc :
  ∃ m pre, digits36 (S fuel) n acc = digit36 (m mod 36) :: pre ++ acc.
Proof.
  revert n acc. induction fuel as [|fuel IH]; intros n acc.
  - simpl. exists n, []. by destruct (n / 36 =? 0)%N.
  - change (digits36 (S (S fuel)) n acc)
      with (let acc' := digit36 (n mod 36) :: acc in
            if (n / 36 =? 0)%N then acc'
            else digits36 (S fuel) (n / 36) acc').
    cbv zeta. destruct (n / 36 =? 0)%N.
    + by exists n, [].
    + destruct (IH (n / 36)%N (digit36 (n mod 36) :: acc)) as (m & pre & ->).
      exists m, (pre ++ [digit36 (n mod 36)]). by rewrite <- app_assoc.
Qed.

Lemma toString36_head z :
  ∃ c s, toString36 z = c :: s ∧ is_space c = false.
Proof.
  unfold toString36.
  destruct (digits36_head (N.to_nat (N.log2 (Z.abs_N z))) (Z.abs_N z) [])
    as (m & pre & ->).
  destruct (z <? 0); [by eauto|].
  eexists _, _. split; [done|]. apply digit36_nonspace.
Qed.

Lemma hex_upper_last bs :
  hex_upper bs = [] ∨ ∃ s d, hex_upper bs = s ++ [d] ∧ is_space d = false.
Proof.
  induction bs as [|b bs IH] using rev_ind; [by left|]. right.
  unfold hex_upper. rewrite flat_map_app. simpl.
  exists (hex_upper bs ++ [hexdigit (Byte.to_N b / 16)]),
    (hexdigit (Byte.to_N b mod 16)).
  split; [by rewrite <- app_assoc|]. apply hexdigit_nonspace.
Qed.

(** A generated id is not empty and has no space at either end, so a client
    that sends it back as it is looks up exactly this id. *)
Lemma generateKey_trimmed now rnd :
  generateKey now rnd ≠ [] ∧ trim (generateKey now rnd) = generateKey now rnd.
Proof.
  unfold generateKey.
  destruct (toString36_head now) as (c & s & -> & Hc).
  split; [done|].
  destruct (hex_upper_last rnd) as [->|(h & d & -> & Hd)].
  - apply (trim_fixed c s 45%N); done.
  - replace ((c :: s) ++ [45%N] ++ h ++ [d])
      with (c :: (s ++ [45%N] ++ h) ++ [d]) by (by rewrite <- !app_assoc).
    by apply trim_fixed.
Qed.

(** The fuel of [digits36] is enough: the numeral reads back as the
    number. *)
Lemma undigit36_digit36 d : (d < 36)%N → undigit36 (digit36 d) = d.
Proof.
  intros H. unfold undigit36, digit36.
  destruct (N.ltb_spec d 10).
  - destruct (N.ltb_spec (48 + d) 58); lia.
  - destruct (N.ltb_spec (87 + d) 58); lia.
Qed.

Lemma digits36_value fuel n acc :
  (n < 2 ^ N.of_nat fuel)%N →
  foldl (λ v c, v * 36 + undigit36 c)%N 0%N (digits36 fuel n acc)
  = foldl (λ v c, v * 36 + undigit36 c)%N n acc.
Proof.
  revert n acc. induction fuel as [|fuel IH]; intros n acc Hn.
  - simpl in *. by replace n with 0%N by lia.
  - assert (n mod 36 < 36)%N as Hmod by (by apply N.mod_lt).
    assert (n = 36 * (n / 36) + n mod 36)%N as Hdiv by (by apply N.div_mod).
    rewrite Nat2N.inj_succ, N.pow_succ_r' in Hn.
    revert Hmod Hdiv. simpl.
    generalize (n mod 36)%N (n / 36)%N. intros m q Hmod Hdiv.
    destruct (N.eqb_spec q 0) as [->|Hq]; simpl.
    + rewrite undigit36_digit36 by done. f_equal. lia.
    + rewrite IH by lia. simpl. rewrite undigit36_digit36 by done.
      f_equal. lia.
Qed.

Lemma toString36_value z : 0 ≤ z → value36 (toString36 z) = Z.to_N z.
Proof.
  intros Hz. unfold toString36, value36.
  destruct (Z.ltb_spec z 0) as [|_]; [lia|].
  rewrite digits36_value; [simpl; lia|].
  rewrite Nat2N.inj_succ, N2Nat.id.
  destruct (decide (Z.abs_N z = 0%N)) as [->|Hne]; [done|].
  apply N.log2_spec. lia.
Qed.

(** Generated ids determine the clock reading and the random bytes they
    were made of. *)
Lemma digits36_no_dash fuel n acc :
  Forall (λ c, c ≠ 45%N) acc → Forall (λ c, c ≠ 45%N) (digits36 fuel n acc).
Proof.
  revert n acc. induction fuel as [|fuel IH]; intros n acc Hacc; [done|].
  assert (digit36 (n mod 36) ≠ 45%N) as Hd.
  { unfold digit36. generalize (n mod 36)%N. intros d.
    destruct (N.ltb_spec d 10); lia. }
  simpl. destruct (n / 36 =? 0)%N; [by constructor|].
  apply IH. by constructor.
Qed.

Lemma split_at_dash (s1 s2 h1 h2 : jsstring) :
  Forall (λ c, c ≠ 45%N) s1 → Forall (λ c, c ≠ 45%N) s2 →
  s1 ++ 45%N :: h1 = s2 ++ 45%N :: h2 → s1 = s2 ∧ h1 = h2.
Proof.
  revert s2. induction s1 as [|c s1 IH]; intros [|d s2] H1 H2 E; simpl in E.
  - by simplify_eq.
  - simplify_eq. by apply Forall_cons in H2 as [? _].
  - simplify_eq. by apply Forall_cons in H1 as [? _].
  - apply Forall_cons in H1 as [_ H1]. apply Forall_cons in H2 as [_ H2].
    injection E as -> E. destruct (IH s2 H1 H2 E) as [-> ->]. done.
Qed.

Lemma hexdigit_inj d d' :
  (d < 16)%N → (d' < 16)%N → hexdigit d = hexdigit d' → d = d'.
Proof.
  unfold hexdigit. intros Hd Hd'.
  destruct (N.ltb_spec d 10), (N.ltb_spec d' 10); lia.
Qed.

Lemma hex_pair_inj (b b' : byte) :
  hexdigit (Byte.to_N b / 16) = hexdigit (Byte.to_N b' / 16) →
  hexdigit (Byte.to_N b mod 16) = hexdigit (Byte.to_N b' mod 16) →
  b = b'.
Proof.
  intros Hhi Hlo.
  pose proof (Byte.to_N_bounded b) as Hb.
  pose proof (Byte.to_N_bounded b') as Hb'.
  assert (Byte.to_N b = Byte.to_N b') as E.
  { rewrite (N.div_mod (Byte.to_N b) 16), (N.div_mod (Byte.to_N b') 16)
      by done.
    apply hexdigit_inj in Hhi, Hlo;
      try (by apply N.mod_lt); try (apply N.Div0.div_lt_upper_bound; lia).
    by rewrite Hhi, Hlo. }
  apply (f_equal Byte.of_N) in E. rewrite !Byte.of_to_N in E. by simplify_eq.
Qed.

Lemma hex_upper_inj bs bs' : hex_upper bs = hex_upper bs' → bs = bs'.
Proof.
  revert bs'. induction bs as [|b bs IH]; intros [|b' bs'] E; try done.
  unfold hex_upper in E. simpl in E. injection E as Hhi Hlo E.
  f_equal; [by apply hex_pair_inj|by apply IH].
Qed.

Lemma generateKey_inj t1 rnd1 t2 rnd2 :
  0 ≤ t1 → 0 ≤ t2 →
  generateKey t1 rnd1 = generateKey t2 rnd2 → t1 = t2 ∧ rnd1 = rnd2.
Proof.
  intros H1 H2 E. unfold generateKey in E. simpl in E.
  apply split_at_dash in E as [Et Er].
  - split; [|by apply hex_upper_inj].
    apply (f_equal value36) in Et. rewrite !toString36_value in Et by done.
    lia.
  - unfold toString36. destruct (Z.ltb_spec t1 0); [lia|].
    by apply digits36_no_dash.
  - unfold toString36. destruct (Z.ltb_spec t2 0); [lia|].
    by apply digits36_no_dash.
Qed.

(** ** Issue, then redeem *)

(** What a success response of /gerar tells about the run. *)
Lemma gerar_issued MONETIZZY_TOKEN isValidUrl ks tok link gw t_key rnd
    t_created disk_ok k url :
  let o := gerar MONETIZZY_TOKEN isValidUrl ks tok link gw t_key rnd
             t_created disk_ok in
  resp o = (200, Issued k url) →
  ∃ l, accepted MONETIZZY_TOKEN isValidUrl tok link l
       ∧ gw = inr (Some url) ∧ url ≠ [] ∧ disk_ok = true
       ∧ k = generateKey t_key rnd
       ∧ keys_after o = ks ++ [keyObject k t_created url (trim l)]
       ∧ log o = [CallGateway (trim l); WriteFile (keys_after o) true].
Proof.
  intros o Hr. subst o.
  destruct (accepted_dec MONETIZZY_TOKEN isValidUrl tok link) as [[l Hl]|Hn].
  - exists l. split; [done|]. revert Hr.
    rewrite (gerar_accepted _ _ _ _ _ _ _ _ _ _ l Hl).
    destruct gw as [err|[[|c u]|]]; simpl.
    + unfold gerar_catch. by repeat case_decide.
    + done.
    + destruct disk_ok; [|done]. by intros [= <- <-].
    + done.
  - destruct (gerar_rejected _ _ ks _ _ gw t_key rnd t_created disk_ok Hn)
      as (_ & _ & Hin).
    rewrite Hr, !elem_of_cons in Hin.
    destruct Hin as [?|[?|[?|[?|Hin]]]]; [done..|]. by apply elem_of_nil in Hin.
Qed.

Lemma first_with_pushed ks r :
  key r ∉ (key <$> ks) → first_with (key r) (ks ++ [r]) (length ks) r.
Proof.
  intros Hfresh. split_and!; [|done|].
  - rewrite lookup_app_r by lia. by rewrite Nat.sub_diag.
  - intros j r' Hj Hlt Hk. apply Hfresh. rewrite <- Hk.
    apply list_elem_of_fmap. exists r'. split; [done|].
    rewrite lookup_app_l in Hj by done. by eapply list_elem_of_lookup_2.
Qed.

(** Once /validar has marked a record, whether or not the write worked,
    its id is answered "already used" ever after. *)
Lemma redeem_twice MONETIZZY_TOKEN isValidUrl ks id i r t_check t_used disk_ok :
  id ≠ [] → first_with (trim id) ks i r → used r = false →
  ¬ Expired t_check r →
  let o1 := validar ks (Some id) t_check t_used disk_ok in
  resp o1 = (if disk_ok then (200, KeyValid) else (500, ValidarInternal))
  ∧ ∀ reqs t_check' t_used' disk_ok',
      resp (validar (run MONETIZZY_TOKEN isValidUrl (keys_after o1) reqs)
              (Some id) t_check' t_used' disk_ok')
      = (200, KeyAlreadyUsed).
Proof.
  intros Hid Hf Hu He o1. subst o1.
  rewrite (validar_marks ks id _ _ _ Hid i r Hf Hu He). simpl.
  split; [done|]. intros reqs t_check' t_used' disk_ok'.
  rewrite validar_redeemed; [done|done|].
  apply run_redeemed. by apply mark_redeemed.
Qed.

(** C2 (as amended). For every record that is unused, unexpired and the
    first of the array with its id, supplied as a non-empty string, if the
    file write succeeds then /validar answers "valid", and every later
    /validar of the same id, after any further requests and sweeps, answers
    "already used".  In particular this holds for the record of a successful
    /gerar whose generated id the array did not hold yet, redeemed by that
    id while the clock is at most 24 hours past its [createdAt]. *)
Theorem redeem_exactly_once MONETIZZY_TOKEN isValidUrl :
  (∀ ks id i r t_check t_used,
     id ≠ [] → first_with (trim id) ks i r → used r = false →
     ¬ Expired t_check r →
     let o1 := validar ks (Some id) t_check t_used true in
     resp o1 = (200, KeyValid)
     ∧ ∀ reqs t_check' t_used' disk_ok',
         resp (validar (run MONETIZZY_TOKEN isValidUrl (keys_after o1) reqs)
                 (Some id) t_check' t_used' disk_ok')
         = (200, KeyAlreadyUsed))
  ∧ (∀ ks tok link gw t_key rnd t_created disk_ok k url t_check t_used,
     let o := gerar MONETIZZY_TOKEN isValidUrl ks tok link gw t_key rnd
                t_created disk_ok in
     resp o = (200, Issued k url) → k ∉ (key <$> ks) →
     t_check - t_created ≤ DAY_MS →
     let o1 := validar (keys_after o) (Some k) t_check t_used true in
     resp o1 = (200, KeyValid)
     ∧ ∀ reqs t_check' t_used' disk_ok',
         resp (validar (run MONETIZZY_TOKEN isValidUrl (keys_after o1) reqs)
                 (Some k) t_check' t_used' disk_ok')
         = (200, KeyAlreadyUsed)).
Proof.
  split.
  - intros ks id i r t_check t_used Hid Hf Hu He.
    by apply (redeem_twice _ _ ks id i r t_check t_used true).
  - intros ks tok link gw t_key rnd t_created disk_ok k url t_check t_used o
      Hr Hfresh Hage.
    destruct (gerar_issued _ _ _ _ _ _ _ _ _ _ _ _ Hr)
      as (l & _ & _ & _ & _ & Hk & Hks & _).
    fold o in Hks. rewrite Hks.
    destruct (generateKey_trimmed t_key rnd) as [Hne Htrim].
    rewrite <- Hk in Hne, Htrim.
    apply (redeem_twice _ _ _ k (length ks)
             (keyObject k t_created url (trim l)) t_check t_used true);
      [done| |done|].
    + rewrite Htrim.
      apply (first_with_pushed ks (keyObject k t_created url (trim l))).
      done.
    + intros (c & Hc & _ & Hlt). simpl in Hc. simplify_eq. lia.
Qed.

Lemma redeem_exactly_once_witness :
  let tok := lit "secret" in
  let rnd := [xab; xcd; x01; x23; x45; x67] in
  let o := gerar tok (λ _, true) [] (Some tok)
             (Some (lit "https://example.com/a"))
             (inr (Some (lit "https://ufly.monetizzy.com/abc")))
             1700000000000 rnd 1700000000001 true in
  let k := generateKey 1700000000000 rnd in
  let o1 := validar (keys_after o) (Some k) 1700000000002 1700000000003 true in
  resp o1 = (200, KeyValid)
  ∧ resp (validar (keys_after o1) (Some k) 1700000000004 1700000000005 true)
    = (200, KeyAlreadyUsed).
Proof.
  intros tok rnd o k o1.
  destruct (redeem_exactly_once tok (λ _, true)) as [_ H].
  destruct (H [] (Some tok) (Some (lit "https://example.com/a"))
              (inr (Some (lit "https://ufly.monetizzy.com/abc")))
              1700000000000 rnd 1700000000001 true k
              (lit "https://ufly.monetizzy.com/abc")
              1700000000002 1700000000003) as [H1 H2].
  - reflexivity.
  - simpl. apply not_elem_of_nil.
  - unfold DAY_MS. lia.
  - split; [exact H1|].
    exact (H2 [] 1700000000004 1700000000005 true).
Defined.

(** C2 (as stated) fails: an unused, unexpired record redeemed while the
    file write fails is answered by a 500 and stays marked used, so the
    second attempt is answered "already used": no attempt returns Valid. *)
Lemma redeem_lost_when_save_fails :
  let k0 := mkKey (lit "k") false (Some 1000) None None None in
  let o1 := validar [k0] (Some (lit "k")) 2000 2001 false in
  used k0 = false ∧ expired_at 2000 k0 = false
  ∧ resp o1 = (500, ValidarInternal)
  ∧ resp (validar (keys_after o1) (Some (lit "k")) 2002 2003 true)
    = (200, KeyAlreadyUsed).
Proof. by split_and!. Qed.

(** ** Used records are kept *)

(** C8. For every array, every record in it with [used = true] and every
    single step (a /gerar, a /validar, a sweep, a status query), the very
    same record, still with [used = true], is in the array after the step;
    hence also after any sequence of steps. *)
Theorem used_never_reverts MONETIZZY_TOKEN isValidUrl ks r :
  r ∈ ks → used r = true →
  (∀ req, r ∈ step MONETIZZY_TOKEN isValidUrl ks req)
  ∧ (∀ reqs, r ∈ run MONETIZZY_TOKEN isValidUrl ks reqs).
Proof.
  intros Hin Hu.
  assert (∀ ks' req, r ∈ ks' → r ∈ step MONETIZZY_TOKEN isValidUrl ks' req)
    as Hstep.
  { intros ks' req Hin'.
    eapply change_used_kept; [apply step_change|done|done]. }
  split; [by auto|].
  intros reqs. unfold run. revert ks Hin.
  induction reqs as [|req reqs IH]; intros ks Hin; [done|]. simpl.
  by apply IH, Hstep.
Qed.

Lemma used_never_reverts_witness :
  let k0 := mkKey (lit "k") true (Some 1000) (Some 1500) None None in
  let k1 := mkKey (lit "j") false (Some 1000) None None None in
  k0 ∈ step (lit "secret") (λ _, true) [k1; k0] (Sweep 1000000000 true).
Proof.
  intros k0 k1.
  destruct (used_never_reverts (lit "secret") (λ _, true) [k1; k0] k0)
    as [H _].
  - apply list_elem_of_further, list_elem_of_here.
  - reflexivity.
  - exact (H (Sweep 1000000000 true)).
Defined.

(** ** Uniqueness of ids *)

Lemma change_NoDup_keys ks req ks' :
  change ks req ks' →
  (∀ r, ks' = ks ++ [r] → key r ∉ (key <$> ks)) →
  NoDup (key <$> ks) → NoDup (key <$> ks').
Proof.
  intros Hc Hfresh Hnd.
  destruct Hc as [|ks ? ? ? t_key rnd t_created ? url l
                  |ks id t_check t_used ok i r _ Hf _ _|ks now ok].
  - done.
  - rewrite fmap_app. apply NoDup_app. split_and!; [done| |apply NoDup_singleton].
    intros k Hk [->|[]%elem_of_nil]%elem_of_cons. revert Hk.
    by apply (Hfresh (keyObject (generateKey t_key rnd) t_created url l)).
  - destruct Hf as (Hi & _).
    rewrite list_fmap_insert. simpl.
    rewrite list_insert_id; [done|]. by rewrite list_lookup_fmap, Hi.
  - eapply sublist_NoDup; [exact Hnd|].
    apply fmap_sublist, sublist_filter.
Qed.

(** Generated ids determine their draw, at every clock reading (a negative
    one is rendered with a leading dash). *)
Lemma digits36_abs_value z :
  value36 (digits36 (S (N.to_nat (N.log2 (Z.abs_N z)))) (Z.abs_N z) [])
  = Z.abs_N z.
Proof.
  unfold value36. rewrite digits36_value; [done|].
  rewrite Nat2N.inj_succ, N2Nat.id.
  destruct (decide (Z.abs_N z = 0%N)) as [->|Hne]; [done|].
  apply N.log2_spec. lia.
Qed.

Lemma digits36_first z :
  ∃ c s, digits36 (S (N.to_nat (N.log2 (Z.abs_N z)))) (Z.abs_N z) [] = c :: s
         ∧ c ≠ 45%N.
Proof.
  pose proof (digits36_no_dash (S (N.to_nat (N.log2 (Z.abs_N z))))
                (Z.abs_N z) [] (Forall_nil_2 _)) as Hnd.
  destruct (digits36_head (N.to_nat (N.log2 (Z.abs_N z))) (Z.abs_N z) [])
    as (m & pre & E).
  rewrite E in *. apply Forall_cons in Hnd as [Hc _]. eauto.
Qed.

Lemma generateKey_inj_all t1 rnd1 t2 rnd2 :
  generateKey t1 rnd1 = generateKey t2 rnd2 → t1 = t2 ∧ rnd1 = rnd2.
Proof.
  unfold generateKey, toString36.
  pose proof (digits36_abs_value t1) as Hv1.
  pose proof (digits36_abs_value t2) as Hv2.
  pose proof (digits36_no_dash (S (N.to_nat (N.log2 (Z.abs_N t1))))
                (Z.abs_N t1) [] (Forall_nil_2 _)) as Hd1.
  pose proof (digits36_no_dash (S (N.to_nat (N.log2 (Z.abs_N t2))))
                (Z.abs_N t2) [] (Forall_nil_2 _)) as Hd2.
  pose proof (digits36_first t1) as Hf1.
  pose proof (digits36_first t2) as Hf2.
  revert Hv1 Hv2 Hd1 Hd2 Hf1 Hf2.
  generalize (digits36 (S (N.to_nat (N.log2 (Z.abs_N t1)))) (Z.abs_N t1) []).
  generalize (digits36 (S (N.to_nat (N.log2 (Z.abs_N t2)))) (Z.abs_N t2) []).
  intros d2 d1 Hv1 Hv2 Hd1 Hd2 (c1 & s1 & Hc1 & Hn1) (c2 & s2 & Hc2 & Hn2).
  destruct (Z.ltb_spec t1 0), (Z.ltb_spec t2 0); intros E.
  - change (45%N :: (d1 ++ 45%N :: hex_upper rnd1)
            = 45%N :: (d2 ++ 45%N :: hex_upper rnd2)) in E.
    injection E as E. apply split_at_dash in E as [Et Er]; [|done..].
    split; [|by apply hex_upper_inj]. rewrite Et in Hv1. lia.
  - subst d2. simpl in E. injection E as E _. congruence.
  - subst d1. simpl in E. injection E as E _. congruence.
  - change (d1 ++ 45%N :: hex_upper rnd1 = d2 ++ 45%N :: hex_upper rnd2) in E.
    apply split_at_dash in E as [Et Er]; [|done..].
    split; [|by apply hex_upper_inj]. rewrite Et in Hv1. lia.
Qed.

(** What a request does to the ids: it keeps them in place or drops some,
    or it is a /gerar that appends one generated id. *)
Lemma change_keys ks req ks' :
  change ks req ks' →
  (key <$> ks') `sublist_of` (key <$> ks)
  ∨ ∃ tok link gw t_key rnd t_created disk_ok url l,
      req = ReqGerar tok link gw t_key rnd t_created disk_ok
      ∧ ks' = ks ++ [keyObject (generateKey t_key rnd) t_created url l].
Proof.
  destruct 1 as [|ks tok link gw t_key rnd t_created ok url l
                 |ks id t_check t_used ok i r _ (Hi & _) _ _|ks now ok].
  - by left.
  - right. by eexists _, _, _, _, _, _, _, _, _.
  - left. rewrite list_fmap_insert. simpl.
    rewrite list_insert_id; [done|]. by rewrite list_lookup_fmap, Hi.
  - left. apply fmap_sublist, sublist_filter.
Qed.

Lemma draws_unique_from MONETIZZY_TOKEN isValidUrl reqs ks hist :
  NoDup (key <$> ks) →
  (∀ k, k ∈ key <$> ks → ∃ p, p ∈ hist ∧ k = generateKey p.1 p.2) →
  NoDup (hist ++ draws MONETIZZY_TOKEN isValidUrl ks reqs) →
  NoDup (key <$> run MONETIZZY_TOKEN isValidUrl ks reqs).
Proof.
  unfold run. revert ks hist.
  induction reqs as [|req reqs IH]; intros ks hist Hnd Hhist Hdraws; [done|].
  simpl in *.
  destruct (change_keys ks req _ (step_change MONETIZZY_TOKEN isValidUrl ks req))
    as [Hsub|(tok & link & gw & t_key & rnd & t_created & ok & url & l
              & -> & Hpush)].
  - apply (IH _ hist).
    + by eapply sublist_NoDup.
    + intros k Hk. apply Hhist. by eapply elem_of_sublist.
    + eapply sublist_NoDup; [exact Hdraws|].
      apply sublist_app; [done|]. apply sublist_inserts_l. done.
  - assert (draw MONETIZZY_TOKEN isValidUrl ks
              (ReqGerar tok link gw t_key rnd t_created ok)
            = [(t_key, rnd)]) as Hdraw.
    { unfold draw. rewrite decide_False; [done|]. rewrite Hpush.
      intros E. apply (f_equal length) in E. rewrite length_app in E.
      simpl in E. lia. }
    rewrite Hdraw in Hdraws. rewrite Hpush in *.
    assert ((t_key, rnd) ∉ hist) as Hnew.
    { apply NoDup_app in Hdraws as (_ & Hdisj & _). intros Hin.
      apply (Hdisj _ Hin). apply elem_of_app. left. apply list_elem_of_here. }
    apply (IH _ (hist ++ [(t_key, rnd)])).
    + rewrite fmap_app. apply NoDup_app. split_and!; [done| |].
      * intros k Hk [->|[]%elem_of_nil]%elem_of_cons.
        destruct (Hhist _ Hk) as ([t r] & Hp & E). simpl in E.
        apply generateKey_inj_all in E as [<- <-]. done.
      * apply NoDup_singleton.
    + intros k. rewrite fmap_app. intros [Hk|Hk]%elem_of_app.
      * destruct (Hhist _ Hk) as (p & Hp & E). exists p.
        split; [|done]. apply elem_of_app. by left.
      * apply list_elem_of_singleton in Hk as ->. exists (t_key, rnd).
        split; [|done]. apply elem_of_app. right. apply list_elem_of_here.
    + by rewrite <- app_assoc.
Qed.

(** C4 (as amended). In every array reached from the empty store by any
    sequence of /gerar, /validar, sweeps and status queries in which no two
    /gerar requests that push a record have both the same clock reading and
    the same random bytes in [generateKey], no two records have the same
    id. *)
Theorem ids_unique_when_draws_differ MONETIZZY_TOKEN isValidUrl reqs :
  NoDup (draws MONETIZZY_TOKEN isValidUrl [] reqs) →
  NoDup (key <$> run MONETIZZY_TOKEN isValidUrl [] reqs).
Proof.
  intros Hd. apply (draws_unique_from _ _ reqs [] []).
  - constructor.
  - intros k []%elem_of_nil.
  - exact Hd.
Qed.

Lemma ids_unique_when_draws_differ_witness :
  let tok := lit "secret" in
  let issue rnd t :=
    ReqGerar (Some tok) (Some (lit "https://example.com/a"))
      (inr (Some (lit "https://ufly.monetizzy.com/abc"))) t rnd t true in
  let reqs :=
    [issue [xab; xcd; x01; x23; x45; x67] 1700000000000;
     issue [xab; xcd; x01; x23; x45; x68] 1700000000000;
     ReqValidar (Some (lit "loyw3v28-ABCD01234567")) 1700000000001
       1700000000002 true;
     issue [xab; xcd; x01; x23; x45; x67] 1700000000003] in
  key <$> run tok (λ _, true) [] reqs
  = [lit "loyw3v28-ABCD01234567"; lit "loyw3v28-ABCD01234568";
     lit "loyw3v2b-ABCD01234567"]
  ∧ NoDup (key <$> run tok (λ _, true) [] reqs).
Proof.
  intros tok issue reqs. split; [reflexivity|].
  apply (ids_unique_when_draws_differ tok (λ _, true) reqs).
  change (NoDup [(1700000000000, [xab; xcd; x01; x23; x45; x67]);
                 (1700000000000, [xab; xcd; x01; x23; x45; x68]);
                 (1700000000003, [xab; xcd; x01; x23; x45; x67])]).
  repeat (apply NoDup_cons; split); try apply NoDup_nil_2;
    rewrite ?elem_of_cons, elem_of_nil; intros H;
    repeat destruct H as [H|H]; try done; discriminate H.
Defined.

(** C4 (as stated) fails: two /gerar requests served in the same
    millisecond that draw the same six random bytes leave two records with
    the same id. *)
Lemma duplicate_id_reachable :
  let tok := lit "secret" in
  let req := ReqGerar (Some tok) (Some (lit "https://example.com/a"))
               (inr (Some (lit "https://ufly.monetizzy.com/abc")))
               1700000000000 [xab; xcd; x01; x23; x45; x67] 1700000000000 true in
  let ks := step tok (λ _, true) (step tok (λ _, true) [] req) req in
  reachable_monotone tok (λ _, true) 1700000000000 ks
  ∧ (∃ r1 r2, ks = [r1; r2] ∧ key r1 = key r2)
  ∧ ¬ NoDup (key <$> ks).
Proof.
  intros tok req ks. split_and!.
  - apply (reach_step tok (λ _, true) _ 1700000000000 _ req).
    + apply (reach_step tok (λ _, true) _ 1700000000000 [] req).
      * apply reach_start.
      * simpl. lia.
    + simpl. lia.
  - by eexists _, _.
  - intros [Hnotin _]%NoDup_cons. apply Hnotin. apply list_elem_of_here.
Qed.

(** ** [used] and [usedAt] *)

Lemma created_by_mono t t' r : t ≤ t' → created_by t r → created_by t' r.
Proof. intros Hle (c & Hc & Hct). exists c. split; [done|lia]. Qed.

Lemma clock_ok_last t req : clock_ok t req → t ≤ last_reading t req.
Proof. destruct req; simpl; lia. Qed.

Lemma change_consistent t ks req ks' :
  change ks req ks' → clock_ok t req →
  Forall (λ r, usedAt_consistent r ∧ created_by t r) ks →
  Forall (λ r, usedAt_consistent r ∧ created_by (last_reading t req) r) ks'.
Proof.
  intros Hc Hclk Hall.
  assert (Forall (λ r, usedAt_consistent r
                       ∧ created_by (last_reading t req) r) ks) as Hall'.
  { eapply Forall_impl; [exact Hall|]. intros r [H1 H2]. split; [done|].
    eapply created_by_mono; [|exact H2]. by apply clock_ok_last. }
  destruct Hc as [|ks ? ? ? t_key rnd t_created ? url l
                  |ks id t_check t_used ok i r _ Hf Hu _|ks now ok].
  - done.
  - apply Forall_app. split; [done|]. apply Forall_singleton. split.
    + split; [done|]. simpl. discriminate.
    + exists t_created. simpl. split; [done|lia].
  - destruct Hf as (Hi & _).
    apply Forall_insert; [done|].
    pose proof (Forall_lookup_1 _ _ _ _ Hall Hi) as [_ (c & Hc & Hct)].
    simpl in Hclk. split.
    + split; [simpl; discriminate|]. intros _. exists t_used, c. simpl.
      split_and!; [done|done|lia].
    + exists c. simpl. split; [done|lia].
  - apply Forall_forall. intros r [_ Hin]%list_elem_of_filter.
    by apply (proj1 (Forall_forall _ _) Hall').
Qed.

(** C9. In every array reached from the empty store by /gerar, /validar
    and sweeps under a clock that never goes back, a record with
    [used = false] has no [usedAt], and a record with [used = true] has a
    [usedAt] and a [createdAt] with [createdAt ≤ usedAt]. *)
Theorem usedAt_invariant MONETIZZY_TOKEN isValidUrl t ks :
  reachable_monotone MONETIZZY_TOKEN isValidUrl t ks →
  Forall usedAt_consistent ks.
Proof.
  intros H.
  assert (Forall (λ r, usedAt_consistent r ∧ created_by t r) ks) as Hs.
  { unfold reachable_monotone in H.
    induction H as [t|t ks req _ IH Hclk]; [constructor|].
    eapply change_consistent; [apply step_change|exact Hclk|exact IH]. }
  eapply Forall_impl; [exact Hs|]. by intros r [? _].
Qed.

Lemma usedAt_invariant_witness :
  let tok := lit "secret" in
  let rnd := [xab; xcd; x01; x23; x45; x67] in
  let req1 := ReqGerar (Some tok) (Some (lit "https://example.com/a"))
                (inr (Some (lit "https://ufly.monetizzy.com/abc")))
                1700000000000 rnd 1700000000001 true in
  let req2 := ReqValidar (Some (generateKey 1700000000000 rnd))
                1700000000002 1700000000003 true in
  let ks := step tok (λ _, true) (step tok (λ _, true) [] req1) req2 in
  Forall usedAt_consistent ks
  ∧ ks = [mkKey (generateKey 1700000000000 rnd) true (Some 1700000000001)
            (Some 1700000000003) (Some (lit "https://ufly.monetizzy.com/abc"))
            (Some (lit "https://example.com/a"))].
Proof.
  intros tok rnd req1 req2 ks. split; [|reflexivity].
  apply (usedAt_invariant tok (λ _, true) 1700000000003).
  apply (reach_step tok (λ _, true) _ 1700000000001 _ req2).
  - apply (reach_step tok (λ _, true) _ 0 [] req1).
    + apply reach_start.
    + simpl. lia.
  - simpl. lia.
Defined.

(** ** Failures of the shortener *)

Lemma gerar_catch_cases err :
  (err_code err = Some (lit "ECONNABORTED") →
     gerar_catch err = (408, GatewayTimeout))
  ∧ (err_code err ≠ Some (lit "ECONNABORTED") → err_status err = Some 401 →
     gerar_catch err = (401, GatewayUnauthorized))
  ∧ (err_code err ≠ Some (lit "ECONNABORTED") → err_status err ≠ Some 401 →
     gerar_catch err = (500, GerarInternal)).
Proof. unfold gerar_catch. split_and!; intros; by repeat case_decide. Qed.

(** The events of /gerar: nothing; or the call alone; or the call, then the
    push and the write. *)
Lemma gerar_order MONETIZZY_TOKEN isValidUrl ks tok link gw t_key rnd
    t_created disk_ok :
  let o := gerar MONETIZZY_TOKEN isValidUrl ks tok link gw t_key rnd
             t_created disk_ok in
  (log o = [] ∧ keys_after o = ks)
  ∨ (∃ l, log o = [CallGateway l] ∧ keys_after o = ks)
  ∨ (∃ l r, log o = [CallGateway l; WriteFile (ks ++ [r]) disk_ok]
            ∧ keys_after o = ks ++ [r]).
Proof.
  intros o. subst o.
  destruct (accepted_dec MONETIZZY_TOKEN isValidUrl tok link) as [[l Hl]|Hn].
  - rewrite (gerar_accepted _ _ _ _ _ _ _ _ _ _ l Hl).
    destruct gw as [err|data]; simpl; [right; left; eauto|].
    destruct (truthy_field truthy_str data); simpl.
    + right; right. eauto.
    + right; left; eauto.
  - left. by destruct (gerar_rejected _ _ ks _ _ gw t_key rnd t_created
                         disk_ok Hn) as (-> & -> & _).
Qed.

(** C5. For every /gerar request that passes the checks, so that the
    shortener is called, and on which that call fails, the array is left as
    it was, nothing is written, and the response follows the kind of
    failure: 408 for a timeout, 401 for an HTTP 401 from the shortener, 500
    for any other error, 400 for an answer without the expected field.  And
    in every run of /gerar the call to the shortener comes before the push
    and the write, if these happen at all. *)
Theorem gateway_failure_creates_nothing MONETIZZY_TOKEN isValidUrl :
  (∀ ks tok link gw t_key rnd t_created disk_ok l expected,
     let o := gerar MONETIZZY_TOKEN isValidUrl ks tok link gw t_key rnd
                t_created disk_ok in
     accepted MONETIZZY_TOKEN isValidUrl tok link l →
     gateway_failure gw expected →
     resp o = expected ∧ keys_after o = ks ∧ log o = [CallGateway (trim l)])
  ∧ (∀ ks tok link gw t_key rnd t_created disk_ok,
     let o := gerar MONETIZZY_TOKEN isValidUrl ks tok link gw t_key rnd
                t_created disk_ok in
     (log o = [] ∧ keys_after o = ks)
     ∨ (∃ l, log o = [CallGateway l] ∧ keys_after o = ks)
     ∨ (∃ l r, log o = [CallGateway l; WriteFile (ks ++ [r]) disk_ok]
               ∧ keys_after o = ks ++ [r])).
Proof.
  split; [|apply gerar_order].
  intros ks tok link gw t_key rnd t_created disk_ok l expected o Hacc Hfail.
  subst o. rewrite (gerar_accepted _ _ _ _ _ _ _ _ _ _ l Hacc).
  destruct (gerar_catch_cases (match gw with inl e => e | _ => save_error end))
    as (H1 & H2 & H3).
  destruct Hfail as [err Hc|err Hc Hs|err Hc Hs|data [->| ->]]; simpl;
    split_and!; auto.
Qed.

Lemma gateway_failure_creates_nothing_witness :
  let tok := lit "secret" in
  let k0 := mkKey (lit "k") false (Some 1000) None None None in
  gerar tok (λ _, true) [k0] (Some tok) (Some (lit " https://example.com/a "))
    (inl (mkErr (Some (lit "ECONNABORTED")) None)) 2000 [x01; x02; x03; x04; x05; x06]
    2001 true
  = mkOutcome (408, GatewayTimeout) [k0]
      [CallGateway (lit "https://example.com/a")].
Proof.
  intros tok k0.
  destruct (gateway_failure_creates_nothing tok (λ _, true)) as [H _].
  destruct (H [k0] (Some tok) (Some (lit " https://example.com/a "))
              (inl (mkErr (Some (lit "ECONNABORTED")) None)) 2000
              [x01; x02; x03; x04; x05; x06] 2001 true
              (lit " https://example.com/a ") (408, GatewayTimeout))
    as (H1 & H2 & H3).
  - unfold accepted. split_and!; done.
  - by apply failure_timeout.
  - destruct (gerar _ _ _ _ _ _ _ _ _ _) as [re ka lo]. simpl in *.
    by subst.
Defined.

(** ** Failures of the file write *)

Lemma validar_valid ks body t_check t_used disk_ok :
  let o := validar ks body t_check t_used disk_ok in
  (resp o = (200, KeyValid) →
     disk_ok = true ∧ log o = [WriteFile (keys_after o) true])
  ∧ (∀ w, WriteFile w false ∈ log o → resp o = (500, ValidarInternal)).
Proof.
  intros o. subst o. destruct body as [id|]; [|split; [done|]].
  2:{ intros w []%elem_of_nil. }
  destruct (decide (id = [])) as [->|Hid]; [split; [done|]|].
  { intros w []%elem_of_nil. }
  rewrite validar_lookup by done.
  destruct (list_find _ ks) as [[i r]|]; [|split; [done|]].
  2:{ intros w []%elem_of_nil. }
  destruct (used r); [split; [done|]|].
  { intros w []%elem_of_nil. }
  destruct (expired_at t_check r); [split; [done|]|].
  { intros w []%elem_of_nil. }
  destruct disk_ok; simpl; split; try done.
  intros w [[=]|[]%elem_of_nil]%elem_of_cons.
Qed.

Lemma gerar_failed_write MONETIZZY_TOKEN isValidUrl ks tok link gw t_key rnd
    t_created disk_ok w :
  let o := gerar MONETIZZY_TOKEN isValidUrl ks tok link gw t_key rnd
             t_created disk_ok in
  WriteFile w false ∈ log o → resp o = (500, GerarInternal).
Proof.
  intros o. subst o.
  destruct (accepted_dec MONETIZZY_TOKEN isValidUrl tok link) as [[l Hl]|Hn].
  - rewrite (gerar_accepted _ _ _ _ _ _ _ _ _ _ l Hl).
    destruct gw as [err|data]; simpl.
    + intros [[=]|[]%elem_of_nil]%elem_of_cons.
    + destruct (truthy_field truthy_str data); simpl.
      * intros [[=]|[[= _ <-]|[]%elem_of_nil]%elem_of_cons]%elem_of_cons.
        done.
      * intros [[=]|[]%elem_of_nil]%elem_of_cons.
  - destruct (gerar_rejected _ _ ks _ _ gw t_key rnd t_created disk_ok Hn)
      as (_ & -> & _). intros []%elem_of_nil.
Qed.

Lemma gerar_status_200 MONETIZZY_TOKEN isValidUrl ks tok link gw t_key rnd
    t_created disk_ok :
  let o := gerar MONETIZZY_TOKEN isValidUrl ks tok link gw t_key rnd
             t_created disk_ok in
  fst (resp o) = 200 → ∃ k url, resp o = (200, Issued k url).
Proof.
  intros o. subst o.
  destruct (accepted_dec MONETIZZY_TOKEN isValidUrl tok link) as [[l Hl]|Hn].
  - rewrite (gerar_accepted _ _ _ _ _ _ _ _ _ _ l Hl).
    destruct gw as [err|data]; simpl.
    + unfold gerar_catch. by repeat case_decide.
    + destruct (truthy_field truthy_str data); simpl; [|done].
      destruct disk_ok; [eauto|done].
  - destruct (gerar_rejected _ _ ks _ _ gw t_key rnd t_created disk_ok Hn)
      as (_ & _ & Hin).
    rewrite !elem_of_cons in Hin.
    destruct Hin as [->|[->|[->|[->|Hin]]]]; [done..|].
    by apply elem_of_nil in Hin.
Qed.

(** C6. For every /gerar and every /validar: a success response (200 with
    the new key, resp. 200 "valid") is sent only if the array as mutated was
    written to the file and the write succeeded; and when a write is
    attempted and fails, the response is a 500.  In particular no run with a
    failing disk returns a success response. *)
Theorem success_only_if_saved MONETIZZY_TOKEN isValidUrl ks tok link gw
    t_key rnd t_created body t_check t_used disk_ok :
  let og := gerar MONETIZZY_TOKEN isValidUrl ks tok link gw t_key rnd
              t_created disk_ok in
  let ov := validar ks body t_check t_used disk_ok in
  (fst (resp og) = 200 → disk_ok = true ∧ WriteFile (keys_after og) true ∈ log og)
  ∧ (resp ov = (200, KeyValid) →
       disk_ok = true ∧ WriteFile (keys_after ov) true ∈ log ov)
  ∧ (∀ w, WriteFile w false ∈ log og → resp og = (500, GerarInternal))
  ∧ (∀ w, WriteFile w false ∈ log ov → resp ov = (500, ValidarInternal))
  ∧ (disk_ok = false → fst (resp og) ≠ 200 ∧ resp ov ≠ (200, KeyValid)).
Proof.
  intros og ov.
  assert (fst (resp og) = 200 →
          disk_ok = true ∧ WriteFile (keys_after og) true ∈ log og) as Hg.
  { intros (k & url & Hr)%gerar_status_200.
    destruct (gerar_issued _ _ _ _ _ _ _ _ _ _ _ _ Hr)
      as (l & _ & _ & _ & Hd & _ & _ & Hlog).
    split; [done|]. fold og in Hlog. rewrite Hlog.
    apply list_elem_of_further, list_elem_of_here. }
  assert (resp ov = (200, KeyValid) →
          disk_ok = true ∧ WriteFile (keys_after ov) true ∈ log ov) as Hv.
  { intros Hr. destruct (validar_valid ks body t_check t_used disk_ok)
      as [H _]. destruct (H Hr) as [Hd Hlog]. split; [done|].
    fold ov in Hlog. rewrite Hlog. apply list_elem_of_here. }
  split_and!; [done|done| | |].
  - intros w. apply gerar_failed_write.
  - intros w. apply validar_valid.
  - intros Hd. split.
    + intros [? _]%Hg. congruence.
    + intros [? _]%Hv. congruence.
Qed.

Lemma success_only_if_saved_witness :
  let tok := lit "secret" in
  let k0 := mkKey (lit "k") false (Some 1000) None None None in
  fst (resp (gerar tok (λ _, true) [k0] (Some tok)
               (Some (lit "https://example.com/a"))
               (inr (Some (lit "https://ufly.monetizzy.com/abc")))
               2000 [x01; x02; x03; x04; x05; x06] 2001 false)) ≠ 200
  ∧ resp (validar [k0] (Some (lit "k")) 2000 2001 false) ≠ (200, KeyValid).
Proof.
  intros tok k0.
  destruct (success_only_if_saved tok (λ _, true) [k0] (Some tok)
              (Some (lit "https://example.com/a"))
              (inr (Some (lit "https://ufly.monetizzy.com/abc")))
              2000 [x01; x02; x03; x04; x05; x06] 2001 (Some (lit "k")) 2000 2001 false)
    as (_ & _ & _ & _ & H).
  exact (H eq_refl).
Defined.

(** ** GET /status *)

(** C7. For every array, the status query reports the number of records,
    the number of records with [used = true], and their difference as
    [available]; unused records count as available whether or not they are
    past the 24 hours at any clock reading [now]; and the query leaves the
    array as it is and writes nothing. *)
Theorem status_counts ks now :
  let o := status ks in
  st_total (resp o) = length ks
  ∧ st_used (resp o) = length (filter (λ r, used r = true) ks)
  ∧ st_available (resp o) = (st_total (resp o) - st_used (resp o))%nat
  ∧ (st_used (resp o) ≤ st_total (resp o))%nat
  ∧ st_available (resp o)
    = (length (filter (λ r, used r = false ∧ expired_at now r = true) ks)
       + length (filter (λ r, used r = false ∧ expired_at now r = false) ks))%nat
  ∧ keys_after o = ks ∧ log o = [].
Proof.
  simpl. split_and!; try done.
  - induction ks as [|r ks IH]; [done|].
    rewrite !filter_cons.
    pose proof (length_filter (λ r, used r = true) ks).
    destruct (used r); repeat case_decide; simpl in *; try done; lia.
  - apply length_filter.
  - induction ks as [|r ks IH]; [done|].
    rewrite !filter_cons.
    destruct (used r), (expired_at now r); repeat case_decide; simpl in *;
      try lia; intuition congruence.
Qed.

(** ** The sweep, continued *)

(** What a sweep removes: the unused records with a non-zero [createdAt]
    that lies 24 hours or more before the clock. *)
Lemma sweep_removes ks now disk_ok r :
  r ∈ ks →
  (r ∉ keys_after (cleanExpiredKeys ks now disk_ok) ↔
   used r = false ∧ ∃ c, createdAt r = Some c ∧ c ≠ 0 ∧ DAY_MS ≤ now - c).
Proof.
  intros Hin. rewrite cleanExpiredKeys_keys, list_elem_of_filter, keeps_true.
  split.
  - intros Hn. destruct (used r) eqn:Eu; [exfalso; apply Hn; by auto|].
    split; [done|]. destruct (createdAt r) as [c|] eqn:Ec;
      [|exfalso; apply Hn; by auto].
    exists c. split; [done|].
    destruct (decide (c = 0)) as [->|Hc]; [exfalso; apply Hn; by auto|].
    split; [done|].
    destruct (decide (DAY_MS ≤ now - c)) as [|Hlt]; [done|].
    exfalso. apply Hn. split; [|done]. do 3 right. exists c. split; [done|lia].
  - intros (Hu & c & Hc & Hc0 & Hage) [[?|[?|[?|(c' & ? & ?)]]] _];
      simplify_eq; try congruence. lia.
Qed.

(** Nothing is added or reordered by a sweep. *)
Lemma sweep_sublist ks now disk_ok :
  keys_after (cleanExpiredKeys ks now disk_ok) `sublist_of` ks.
Proof. rewrite cleanExpiredKeys_keys. apply sublist_filter. Qed.

(** Used records and records without [createdAt] survive every sweep. *)
Lemma sweep_survivors ks nows disk_ok r :
  r ∈ ks → used r = true ∨ createdAt r = None →
  r ∈ foldl (λ ks now, keys_after (cleanExpiredKeys ks now disk_ok)) ks nows.
Proof.
  intros Hin Hr. revert ks Hin.
  induction nows as [|now nows IH]; intros ks Hin; [done|]. simpl.
  apply IH. rewrite cleanExpiredKeys_keys. apply list_elem_of_filter.
  split; [|done]. apply keeps_true. destruct Hr; auto.
Qed.

(** The file is written exactly when some record was removed, and then
    with the array as swept. *)
Lemma sweep_persists ks now disk_ok :
  let o := cleanExpiredKeys ks now disk_ok in
  (keys_after o = ks ∧ log o = [])
  ∨ ((∃ r, r ∈ ks ∧ r ∉ keys_after o)
     ∧ log o = [WriteFile (keys_after o) disk_ok]).
Proof.
  intros o. subst o. unfold cleanExpiredKeys.
  set (P := λ k, keeps (now - DAY_MS) k = true).
  case_decide as Hlen; simpl.
  - right. split; [|done].
    assert (¬ Forall P ks) as Hex by (by rewrite <- length_filter_eq).
    apply not_Forall_Exists in Hex; [|apply _].
    apply Exists_exists in Hex as (r & Hin & Hr). exists r. split; [done|].
    rewrite list_elem_of_filter. by intros [? _].
  - left. split; [|done].
    assert (Forall P ks) as Hall by (by rewrite <- length_filter_eq).
    clear Hlen. induction Hall as [|x l Hx _ IH]; [done|].
    rewrite filter_cons_True by done. by rewrite IH.
Qed.

(** C3, at its boundary. An unused record whose [createdAt] lies exactly 24
    hours before the clock is not past the 24 hours, and /validar at that
    clock reading answers "valid" for it; yet the sweep at the same reading
    removes it and writes the file. *)
Theorem sweep_removes_at_24h_sharp :
  let k0 := mkKey (lit "k") false (Some 1000) None None None in
  let now := 1000 + DAY_MS in
  ¬ (DAY_MS < now - 1000)
  ∧ cleanExpiredKeys [k0] now true = mkOutcome tt [] [WriteFile [] true]
  ∧ resp (validar [k0] (Some (lit "k")) now now true) = (200, KeyValid).
Proof. split_and!; [unfold DAY_MS; lia|done|done]. Qed.

(** ** Worked examples *)

(** Issue with a link and a shortener that answers: the record carries
    exactly these fields and is unused; redeeming its id answers "valid"
    once and "already used" the second time. *)
Example issue_redeem_redeem :
  let tok := lit "secret" in
  let rnd := [xab; xcd; x01; x23; x45; x67] in
  let o := gerar tok (λ _, true) [] (Some tok)
             (Some (lit "https://example.com/a"))
             (inr (Some (lit "https://ufly.monetizzy.com/abc")))
             1700000000000 rnd 1700000000001 true in
  let k := lit "loyw3v28-ABCD01234567" in
  let o1 := validar (keys_after o) (Some k) 1700000000002 1700000000003 true in
  let o2 := validar (keys_after o1) (Some k) 1700000000004 1700000000005 true in
  resp o = (200, Issued k (lit "https://ufly.monetizzy.com/abc"))
  ∧ keys_after o
    = [mkKey k false (Some 1700000000001) None
         (Some (lit "https://ufly.monetizzy.com/abc"))
         (Some (lit "https://example.com/a"))]
  ∧ resp o1 = (200, KeyValid)
  ∧ resp o2 = (200, KeyAlreadyUsed).
Proof. by split_and!. Qed.

(** Redeeming an id that does not exist: not found, and the status is what
    it was. *)
Example redeem_unknown :
  let k0 := mkKey (lit "k") false (Some 1000) None None None in
  let o := validar [k0] (Some (lit "does-not-exist")) 2000 2001 true in
  o = mkOutcome (404, KeyNotFound) [k0] []
  ∧ resp (status (keys_after o)) = resp (status [k0]).
Proof. by split. Qed.

(** A record past the 24 hours is refused and left in place; the next sweep
    removes it, and then it is not found. *)
Example expired_then_swept :
  let k0 := mkKey (lit "k") false (Some 1000) None None None in
  let now := 1000 + DAY_MS + 1 in
  let o := validar [k0] (Some (lit "k")) now now true in
  let s := cleanExpiredKeys (keys_after o) now true in
  o = mkOutcome (200, KeyExpired) [k0] []
  ∧ s = mkOutcome tt [] [WriteFile [] true]
  ∧ resp (validar (keys_after s) (Some (lit "k")) now now true)
    = (404, KeyNotFound).
Proof. by split_and!. Qed.

(** * Further properties *)

(** ** Generated ids *)

(** X1. Two ids generated at non-negative clock readings are equal only
    if they were made from the same reading and the same random bytes. *)
Theorem generated_ids_injective t1 rnd1 t2 rnd2 :
  0 ≤ t1 → 0 ≤ t2 →
  generateKey t1 rnd1 = generateKey t2 rnd2 → t1 = t2 ∧ rnd1 = rnd2.
Proof.
  intros H1 H2 E. unfold generateKey in E. simpl in E.
  assert (∀ t, 0 ≤ t → Forall (λ c, c ≠ 45%N) (toString36 t)) as Hdash.
  { intros t Ht. unfold toString36. destruct (Z.ltb_spec t 0); [lia|].
    by apply digits36_no_dash. }
  apply split_at_dash in E as [Et Er]; [|by apply Hdash..].
  split; [|by apply hex_upper_inj].
  apply (f_equal value36) in Et. rewrite !toString36_value in Et by done.
  lia.
Qed.

Lemma generated_ids_injective_witness :
  generateKey 1700000000000 [xab; xcd; x01; x23; x45; x67]
  = generateKey 1700000000000 [xab; xcd; x01; x23; x45; x67]
  ∧ (1700000000000 = 1700000000000
     ∧ [xab; xcd; x01; x23; x45; x67] = [xab; xcd; x01; x23; x45; x67]).
Proof.
  split; [reflexivity|].
  apply (generated_ids_injective 1700000000000 _ 1700000000000 _);
    [lia|lia|reflexivity].
Defined.

Lemma digit36_base36 d : (d < 36)%N → is_base36 (digit36 d) = true.
Proof.
  intros H. unfold is_base36, digit36.
  destruct (N.ltb_spec d 10);
    rewrite orb_true_iff, !andb_true_iff, !N.leb_le; lia.
Qed.

Lemma digits36_base36 fuel n acc :
  Forall (λ c, is_base36 c = true) acc →
  Forall (λ c, is_base36 c = true) (digits36 fuel n acc).
Proof.
  revert n acc. induction fuel as [|fuel IH]; intros n acc Hacc; [done|].
  assert (is_base36 (digit36 (n mod 36)) = true) as Hd
    by (by apply digit36_base36, N.mod_lt).
  simpl. destruct (n / 36 =? 0)%N; [by constructor|].
  apply IH. by constructor.
Qed.

Lemma hexdigit_hex_upper d : (d < 16)%N → is_hex_upper (hexdigit d) = true.
Proof.
  intros H. unfold is_hex_upper, hexdigit.
  destruct (N.ltb_spec d 10);
    rewrite orb_true_iff, !andb_true_iff, !N.leb_le; lia.
Qed.

Lemma hex_upper_shape bs :
  Forall (λ c, is_hex_upper c = true) (hex_upper bs)
  ∧ length (hex_upper bs) = (2 * length bs)%nat.
Proof.
  induction bs as [|b bs [IH1 IH2]]; [by split|].
  unfold hex_upper in *. simpl. split; [|lia].
  pose proof (Byte.to_N_bounded b).
  repeat constructor; [| |done].
  - apply hexdigit_hex_upper, N.Div0.div_lt_upper_bound. lia.
  - by apply hexdigit_hex_upper, N.mod_lt.
Qed.

(** X2. An id generated at a non-negative clock reading is a non-empty
    run of [0-9a-z], a dash, and two characters of [0-9A-F] for each random
    byte (twelve for the six bytes drawn); it has no dash elsewhere and no
    white space, so trimming leaves it as it is. *)
Theorem generated_id_shape now rnd :
  0 ≤ now →
  ∃ d h, generateKey now rnd = d ++ [45%N] ++ h
         ∧ d ≠ [] ∧ Forall (λ c, is_base36 c = true) d
         ∧ Forall (λ c, is_hex_upper c = true) h
         ∧ length h = (2 * length rnd)%nat
         ∧ trim (generateKey now rnd) = generateKey now rnd.
Proof.
  intros Hnow. exists (toString36 now), (hex_upper rnd).
  destruct (hex_upper_shape rnd) as [Hh Hl].
  split_and!; [done| | |done|done|apply generateKey_trimmed].
  - destruct (toString36_head now) as (c & s & -> & _). done.
  - unfold toString36. destruct (Z.ltb_spec now 0); [lia|].
    by apply digits36_base36.
Qed.

Lemma generated_id_shape_witness :
  ∃ d h, generateKey 1700000000000 [xab; xcd; x01; x23; x45; x67]
         = d ++ [45%N] ++ h
         ∧ d ≠ [] ∧ Forall (λ c, is_base36 c = true) d
         ∧ Forall (λ c, is_hex_upper c = true) h
         ∧ length h = 12%nat
         ∧ trim (generateKey 1700000000000 [xab; xcd; x01; x23; x45; x67])
           = generateKey 1700000000000 [xab; xcd; x01; x23; x45; x67].
Proof.
  apply (generated_id_shape 1700000000000 [xab; xcd; x01; x23; x45; x67]).
  lia.
Defined.

(** ** POST /gerar, the checks *)

(** X3. /gerar rejects in this order, each time without calling the
    shortener, without touching the array and without writing: a missing or
    empty token, 400; a token that is not the configured one, 403; then a
    missing or empty link, 400; then a link that does not parse as a URL,
    400. *)
Theorem gerar_rejects_in_order MONETIZZY_TOKEN isValidUrl ks tok link gw
    t_key rnd t_created disk_ok :
  let o := gerar MONETIZZY_TOKEN isValidUrl ks tok link gw t_key rnd
             t_created disk_ok in
  (tok = None ∨ tok = Some [] → o = mkOutcome (400, TokenRequired) ks [])
  ∧ (∀ t, tok = Some t → t ≠ [] → t ≠ MONETIZZY_TOKEN →
       o = mkOutcome (403, TokenInvalid) ks [])
  ∧ (tok = Some MONETIZZY_TOKEN → MONETIZZY_TOKEN ≠ [] →
     link = None ∨ link = Some [] →
       o = mkOutcome (400, LinkRequired) ks [])
  ∧ (∀ l, tok = Some MONETIZZY_TOKEN → MONETIZZY_TOKEN ≠ [] →
       link = Some l → l ≠ [] → isValidUrl l = false →
       o = mkOutcome (400, UrlInvalid) ks []).
Proof.
  intros o. subst o. unfold gerar. split_and!.
  - by intros [-> | ->].
  - intros t -> Ht Hne. destruct t as [|c t]; [done|]. simpl.
    rewrite bool_decide_eq_false_2; [done|]. intros [= E]. by apply Hne.
  - intros -> Hne Hl. destruct MONETIZZY_TOKEN as [|c t]; [done|]. simpl.
    rewrite bool_decide_eq_true_2 by done. by destruct Hl as [-> | ->].
  - intros l -> Hne -> Hl Hu. destruct MONETIZZY_TOKEN as [|c t]; [done|].
    destruct l as [|d l]; [done|]. simpl.
    rewrite bool_decide_eq_true_2 by done. simpl. by rewrite Hu.
Qed.

Lemma gerar_rejects_in_order_witness :
  let k0 := mkKey (lit "k") false (Some 1000) None None None in
  gerar (lit "secret") (λ _, false) [k0] (Some (lit "guess")) None
    (inr (Some (lit "https://ufly.monetizzy.com/abc"))) 2000
    [x01; x02; x03; x04; x05; x06] 2001 true
  = mkOutcome (403, TokenInvalid) [k0] [].
Proof.
  intros k0.
  destruct (gerar_rejects_in_order (lit "secret") (λ _, false) [k0]
              (Some (lit "guess")) None
              (inr (Some (lit "https://ufly.monetizzy.com/abc"))) 2000
              [x01; x02; x03; x04; x05; x06] 2001 true) as (_ & H & _).
  apply (H (lit "guess")); [reflexivity| |]; by vm_compute.
Defined.

(** ** POST /gerar, the record *)

(** X4. Whenever /gerar answers 200 with a key and a short link, the array
    is the old one followed by exactly one new record: its id is the key of
    the response, it is unused, has the clock reading as [createdAt], no
    [usedAt], the short link of the response and the trimmed link of the
    request; and the shortener was called on that trimmed link before the
    one, successful, write of the new array. *)
Theorem issued_key_is_stored MONETIZZY_TOKEN isValidUrl ks tok link gw t_key
    rnd t_created disk_ok k url :
  let o := gerar MONETIZZY_TOKEN isValidUrl ks tok link gw t_key rnd
             t_created disk_ok in
  resp o = (200, Issued k url) →
  ∃ l, link = Some l
       ∧ keys_after o
         = ks ++ [mkKey k false (Some t_created) None (Some url)
                    (Some (trim l))]
       ∧ log o = [CallGateway (trim l); WriteFile (keys_after o) true]
       ∧ k = generateKey t_key rnd.
Proof.
  intros o Hr.
  destruct (gerar_issued _ _ _ _ _ _ _ _ _ _ _ _ Hr)
    as (l & (_ & _ & Hl & _) & _ & _ & _ & Hk & Hks & Hlog).
  exists l. by split_and!.
Qed.

Lemma issued_key_is_stored_witness :
  let tok := lit "secret" in
  let o := gerar tok (λ _, true) [] (Some tok)
             (Some (lit " https://example.com/a"))
             (inr (Some (lit "https://ufly.monetizzy.com/abc")))
             1700000000000 [xab; xcd; x01; x23; x45; x67] 1700000000001 true in
  keys_after o
  = [mkKey (lit "loyw3v28-ABCD01234567") false (Some 1700000000001) None
       (Some (lit "https://ufly.monetizzy.com/abc"))
       (Some (lit "https://example.com/a"))].
Proof.
  intros tok o.
  destruct (issued_key_is_stored tok (λ _, true) [] (Some tok)
              (Some (lit " https://example.com/a"))
              (inr (Some (lit "https://ufly.monetizzy.com/abc")))
              1700000000000 [xab; xcd; x01; x23; x45; x67] 1700000000001 true
              (lit "loyw3v28-ABCD01234567")
              (lit "https://ufly.monetizzy.com/abc"))
    as (l & Hl & Hks & _); [reflexivity|].
  injection Hl as <-. exact Hks.
Defined.



(** ** POST /validar, the array *)

Lemma validar_keys_after ks body t_check t_used disk_ok :
  keys_after (validar ks body t_check t_used disk_ok) = ks
  ∨ ∃ i r, ks !! i = Some r ∧ used r = false
           ∧ keys_after (validar ks body t_check t_used disk_ok)
             = <[i := mark_used t_used r]> ks.
Proof.
  destruct body as [id|]; [|by left].
  destruct (decide (id = [])) as [->|Hid]; [by left|].
  rewrite validar_lookup by done.
  destruct (list_find _ ks) as [[i r]|] eqn:E; [|by left].
  apply list_find_Some in E as (Hi & _).
  destruct (used r) eqn:Hu; [by left|].
  destruct (expired_at t_check r); [by left|].
  right. exists i, r. by split_and!.
Qed.

(** X6. /validar never adds, removes or reorders records and never
    changes an id, a [createdAt], a short link or an original link: at most
    one record differs afterwards, and this one was unused and is now used
    with the clock reading as [usedAt]. *)
Theorem validar_touches_one_record ks body t_check t_used disk_ok :
  let ks' := keys_after (validar ks body t_check t_used disk_ok) in
  length ks' = length ks
  ∧ key <$> ks' = key <$> ks
  ∧ createdAt <$> ks' = createdAt <$> ks
  ∧ shortLink <$> ks' = shortLink <$> ks
  ∧ originalLink <$> ks' = originalLink <$> ks
  ∧ (ks' = ks
     ∨ ∃ i r, ks !! i = Some r ∧ used r = false
              ∧ ks' !! i = Some (mark_used t_used r)
              ∧ ∀ j, j ≠ i → ks' !! j = ks !! j).
Proof.
  intros ks'. subst ks'.
  destruct (validar_keys_after ks body t_check t_used disk_ok)
    as [->|(i & r & Hi & Hu & ->)].
  - split_and!; try done. by left.
  - assert (∀ {B} (f : KeyRecord → B), f (mark_used t_used r) = f r →
            f <$> <[i := mark_used t_used r]> ks = f <$> ks) as Hproj.
    { intros B f Hf. rewrite list_fmap_insert, Hf.
      apply list_insert_id. by rewrite list_lookup_fmap, Hi. }
    split_and!; [apply length_insert|by apply Hproj..|].
    right. exists i, r. split_and!; [done|done| |].
    + apply list_lookup_insert_eq. by apply lookup_lt_Some in Hi.
    + intros j Hj. by apply list_lookup_insert_ne.
Qed.

(** ** Counts *)

Lemma count_mark_used (ks : list KeyRecord) i r now :
  ks !! i = Some r → used r = false →
  length (filter (λ k, used k = true) (<[i := mark_used now r]> ks))
  = S (length (filter (λ k, used k = true) ks))
  ∧ S (length (filter (λ k, negb (used k) = true)
                 (<[i := mark_used now r]> ks)))
    = length (filter (λ k, negb (used k) = true) ks).
Proof.
  revert i. induction ks as [|x ks IH]; intros [|i] Hi Hu; simplify_eq/=.
  - rewrite !filter_cons. simpl. rewrite Hu. simpl. by split.
  - destruct (IH i Hi Hu) as [IH1 IH2].
    rewrite !filter_cons. repeat case_decide; simpl; split; lia.
Qed.

(** X7. The status after a successful request: a /gerar that answers 200
    raises [total] and [available] by one and leaves [used]; a /validar
    that answers "valid" raises [used] by one, lowers [available] by one and
    leaves [total]. *)
Theorem status_after_success MONETIZZY_TOKEN isValidUrl ks :
  (∀ tok link gw t_key rnd t_created disk_ok k url,
     let o := gerar MONETIZZY_TOKEN isValidUrl ks tok link gw t_key rnd
                t_created disk_ok in
     resp o = (200, Issued k url) →
     st_total (resp (status (keys_after o))) = S (st_total (resp (status ks)))
     ∧ st_used (resp (status (keys_after o))) = st_used (resp (status ks))
     ∧ st_available (resp (status (keys_after o)))
       = S (st_available (resp (status ks))))
  ∧ (∀ body t_check t_used disk_ok,
     let o := validar ks body t_check t_used disk_ok in
     resp o = (200, KeyValid) →
     st_total (resp (status (keys_after o))) = st_total (resp (status ks))
     ∧ st_used (resp (status (keys_after o))) = S (st_used (resp (status ks)))
     ∧ S (st_available (resp (status (keys_after o))))
       = st_available (resp (status ks))).
Proof.
  split.
  - intros tok link gw t_key rnd t_created disk_ok k url o Hr.
    destruct (gerar_issued _ _ _ _ _ _ _ _ _ _ _ _ Hr)
      as (l & _ & _ & _ & _ & _ & Hks & _).
    fold o in Hks. rewrite Hks. simpl.
    rewrite !filter_app, !length_app. simpl. lia.
  - intros body t_check t_used disk_ok o Hr. subst o.
    destruct body as [id|]; [|done].
    destruct (decide (id = [])) as [->|Hid]; [done|].
    revert Hr. rewrite validar_lookup by done.
    destruct (list_find _ ks) as [[i r]|] eqn:E; [|done].
    apply list_find_Some in E as (Hi & _).
    destruct (used r) eqn:Hu; [done|].
    destruct (expired_at t_check r); [done|]. intros _. simpl.
    destruct (count_mark_used ks i r t_used Hi Hu) as [H1 H2].
    rewrite length_insert. by split_and!.
Qed.

Lemma status_after_success_witness :
  let k0 := mkKey (lit "k") false (Some 1000) None None None in
  let o := validar [k0] (Some (lit "k")) 2000 2001 true in
  resp (status [k0]) = mkStats 1 0 1
  ∧ st_used (resp (status (keys_after o))) = 1%nat
  ∧ S (st_available (resp (status (keys_after o)))) = 1%nat.
Proof.
  intros k0 o. split; [reflexivity|].
  destruct (status_after_success (lit "secret") (λ _, true) [k0]) as [_ H].
  destruct (H (Some (lit "k")) 2000 2001 true) as (_ & H2 & H3);
    [reflexivity|].
  split; [exact H2|exact H3].
Defined.

Lemma count_split (ks : list KeyRecord) :
  length ks
  = (length (filter (λ k, used k = true) ks)
     + length (filter (λ k, negb (used k) = true) ks))%nat.
Proof.
  induction ks as [|r ks IH]; [done|].
  rewrite !filter_cons. destruct (used r); repeat case_decide; simpl in *;
    try done; lia.
Qed.

Lemma sweep_used (ks : list KeyRecord) oneDayAgo :
  filter (λ k, used k = true) (filter (λ k, keeps oneDayAgo k = true) ks)
  = filter (λ k, used k = true) ks.
Proof.
  induction ks as [|r ks IH]; [done|].
  rewrite !filter_cons. destruct (decide (used r = true)) as [Hu|Hu].
  - rewrite decide_True by (apply keeps_true; by left).
    rewrite filter_cons, decide_True by done. by rewrite IH.
  - destruct (decide (keeps oneDayAgo r = true)); [|done].
    rewrite filter_cons, decide_False by done. done.
Qed.

Lemma filter_Forall_id {A} (P : A → Prop) `{∀ x, Decision (P x)} (l : list A) :
  Forall P l → filter P l = l.
Proof.
  induction 1 as [|x l Hx _ IH]; [done|].
  rewrite filter_cons_True by done. by rewrite IH.
Qed.

(** ** The sweep and the counts *)

(** X8. A sweep never changes the number of used records: what it takes
    from [total] it takes from [available], and it never raises either. *)
Theorem sweep_counts ks now disk_ok :
  let before := resp (status ks) in
  let after := resp (status (keys_after (cleanExpiredKeys ks now disk_ok))) in
  st_used after = st_used before
  ∧ (st_total after ≤ st_total before)%nat
  ∧ (st_total before - st_total after
     = st_available before - st_available after)%nat
  ∧ (st_available after ≤ st_available before)%nat.
Proof.
  simpl. rewrite cleanExpiredKeys_keys.
  set (swept := filter (λ k, keeps (now - DAY_MS) k = true) ks).
  pose proof (count_split ks) as H1. pose proof (count_split swept) as H2.
  pose proof (sweep_used ks (now - DAY_MS)) as Hu. fold swept in Hu.
  pose proof (length_filter (λ k, keeps (now - DAY_MS) k = true) ks) as Hle.
  fold swept in Hle. rewrite Hu in H2. rewrite Hu. lia.
Qed.

(** ** Sweeps one after the other *)

Lemma keeps_mono t t' r : t ≤ t' → keeps t' r = true → keeps t r = true.
Proof.
  intros Hle. rewrite !keeps_true.
  intros [?|[?|[?|(c & ? & ?)]]]; auto.
  do 3 right. exists c. split; [done|lia].
Qed.

(** X9. A sweep at a later clock reading absorbs an earlier one: sweeping
    at [t] and then at [t' ≥ t] leaves the array that a single sweep at [t']
    leaves; and a second sweep at the same reading removes nothing and
    writes nothing. *)
Theorem sweeps_compose ks t t' disk_ok disk_ok' :
  t ≤ t' →
  let once := keys_after (cleanExpiredKeys ks t disk_ok) in
  keys_after (cleanExpiredKeys once t' disk_ok')
  = keys_after (cleanExpiredKeys ks t' disk_ok)
  ∧ cleanExpiredKeys once t disk_ok' = mkOutcome tt once [].
Proof.
  intros Hle once. subst once. split.
  - rewrite !cleanExpiredKeys_keys, list_filter_filter.
    apply list_filter_iff. intros r. split; [by intros [? _]|].
    intros H. split; [done|].
    apply (keeps_mono (t - DAY_MS) (t' - DAY_MS)); [lia|done].
  - rewrite cleanExpiredKeys_keys. unfold cleanExpiredKeys.
    rewrite (filter_Forall_id (λ k, keeps (t - DAY_MS) k = true)).
    + by rewrite decide_False by (by intros H; apply H).
    + apply Forall_forall. by intros r [? _]%list_elem_of_filter.
Qed.

Lemma sweeps_compose_witness :
  let k0 := mkKey (lit "k") false (Some 1000) None None None in
  let k1 := mkKey (lit "j") false (Some 5000) None None None in
  let once := keys_after (cleanExpiredKeys [k0; k1] (2000 + DAY_MS) true) in
  once = [k1]
  ∧ keys_after (cleanExpiredKeys once (6000 + DAY_MS) true)
    = keys_after (cleanExpiredKeys [k0; k1] (6000 + DAY_MS) true).
Proof.
  intros k0 k1 once. split; [reflexivity|].
  destruct (sweeps_compose [k0; k1] (2000 + DAY_MS) (6000 + DAY_MS) true true)
    as [H _]; [lia|exact H].
Defined.

(** ** The sweep and the expiry test *)

(** X10. Right after a sweep, /validar answers "expired" for no key: every
    record that the expiry test of /validar refuses at a clock reading up
    to that of the sweep has been removed by the sweep. *)
Theorem no_expired_after_sweep ks now disk_ok body t_check t_used disk_ok' :
  t_check ≤ now →
  resp (validar (keys_after (cleanExpiredKeys ks now disk_ok)) body t_check
          t_used disk_ok') ≠ (200, KeyExpired).
Proof.
  intros Hle. rewrite cleanExpiredKeys_keys.
  set (swept := filter (λ k, keeps (now - DAY_MS) k = true) ks).
  destruct body as [id|]; [|done].
  destruct (decide (id = [])) as [->|Hid]; [done|].
  rewrite validar_lookup by done.
  destruct (list_find _ swept) as [[i r]|] eqn:E; [|done].
  apply list_find_Some in E as (Hi & _).
  apply list_elem_of_lookup_2, list_elem_of_filter in Hi as [Hk _].
  destruct (used r) eqn:Hu; [done|].
  destruct (expired_at t_check r) eqn:He; [|by destruct disk_ok'].
  exfalso. apply expired_at_true in He as (c & Hc & Hc0 & Hlt).
  apply keeps_true in Hk as [?|[?|[?|(c' & ? & ?)]]]; simplify_eq;
    try congruence; lia.
Qed.

Lemma no_expired_after_sweep_witness :
  let k0 := mkKey (lit "k") false (Some 1000) None None None in
  resp (validar [k0] (Some (lit "k")) (1001 + DAY_MS) (1001 + DAY_MS) true)
  = (200, KeyExpired)
  ∧ resp (validar (keys_after (cleanExpiredKeys [k0] (1001 + DAY_MS) true))
            (Some (lit "k")) (1001 + DAY_MS) (1001 + DAY_MS) true)
    ≠ (200, KeyExpired).
Proof.
  intros k0. split; [reflexivity|].
  apply (no_expired_after_sweep [k0] (1001 + DAY_MS) true). lia.
Defined.

(** ** Records without a timestamp *)

(** X11. Records that carry no [createdAt], as the first draft of the
    server wrote them, are never removed by a sweep, which then writes
    nothing, and are never answered "expired" by /validar, at any clock
    reading. *)
Theorem records_without_timestamp_stay ks :
  Forall (λ r, createdAt r = None) ks →
  (∀ now disk_ok, cleanExpiredKeys ks now disk_ok = mkOutcome tt ks [])
  ∧ (∀ body t_check t_used disk_ok,
       resp (validar ks body t_check t_used disk_ok) ≠ (200, KeyExpired)).
Proof.
  intros Hall. split.
  - intros now disk_ok. unfold cleanExpiredKeys.
    rewrite (filter_Forall_id (λ k, keeps (now - DAY_MS) k = true)).
    + by rewrite decide_False by (by intros H; apply H).
    + eapply Forall_impl; [exact Hall|]. intros r Hr.
      apply keeps_true. by auto.
  - intros body t_check t_used disk_ok.
    destruct body as [id|]; [|done].
    destruct (decide (id = [])) as [->|Hid]; [done|].
    rewrite validar_lookup by done.
    destruct (list_find _ ks) as [[i r]|] eqn:E; [|done].
    apply list_find_Some in E as (Hi & _).
    pose proof (Forall_lookup_1 _ _ _ _ Hall Hi) as Hc.
    destruct (used r); [done|]. unfold expired_at. rewrite Hc.
    by destruct disk_ok.
Qed.

Lemma records_without_timestamp_stay_witness :
  let k0 := mkKey (lit "0a1b2c3d-4e5f6a7b") false None None None None in
  cleanExpiredKeys [k0] 1700000000000 true = mkOutcome tt [k0] []
  ∧ resp (validar [k0] (Some (lit "0a1b2c3d-4e5f6a7b")) 1700000000000
            1700000000001 true) = (200, KeyValid).
Proof.
  intros k0.
  destruct (records_without_timestamp_stay [k0]) as [H _].
  - by repeat constructor.
  - split; [apply H|reflexivity].
Defined.

(** ** The number of used keys *)

Lemma change_used_count ks req ks' :
  change ks req ks' →
  (length (filter (λ k, used k = true) ks)
   ≤ length (filter (λ k, used k = true) ks'))%nat.
Proof.
  destruct 1 as [| |ks id t_check t_used ok i r _ (Hi & _) Hu _|ks now ok].
  - done.
  - rewrite filter_app, length_app. lia.
  - destruct (count_mark_used ks i r t_used Hi Hu) as [-> _]. lia.
  - by rewrite sweep_used.
Qed.

(** X14. Over any sequence of /gerar, /validar, sweeps and status queries
    the number of used keys that the status reports never goes down. *)
Theorem used_count_never_drops MONETIZZY_TOKEN isValidUrl ks reqs :
  (st_used (resp (status ks))
   ≤ st_used (resp (status (run MONETIZZY_TOKEN isValidUrl ks reqs))))%nat.
Proof.
  unfold run. revert ks. induction reqs as [|req reqs IH]; intros ks; [done|].
  simpl. etrans; [|apply IH].
  apply (change_used_count ks req), step_change.
Qed.

(** ** The file and the array *)

Lemma step_written MONETIZZY_TOKEN isValidUrl ks req :
  Forall write_ok (events MONETIZZY_TOKEN isValidUrl ks req) →
  let f := λ acc e, match e with WriteFile ks true => Some ks | _ => acc end in
  (step MONETIZZY_TOKEN isValidUrl ks req = ks
   ∧ ∀ acc, foldl f acc (events MONETIZZY_TOKEN isValidUrl ks req) = acc)
  ∨ (∀ acc, foldl f acc (events MONETIZZY_TOKEN isValidUrl ks req)
            = Some (step MONETIZZY_TOKEN isValidUrl ks req)).
Proof.
  intros Hok f.
  destruct req as [tok link gw t_key rnd t_created ok
                  | body t_check t_used ok | now ok | ]; simpl in *.
  - destruct (gerar_order MONETIZZY_TOKEN isValidUrl ks tok link gw t_key rnd
                t_created ok) as [[Hl Hk]|[(l & Hl & Hk)|(l & r & Hl & Hk)]];
      rewrite Hl in *; rewrite Hk.
    + by left.
    + by left.
    + right. apply Forall_cons in Hok as [_ [Hw _]%Forall_cons].
      simpl in Hw. subst ok. done.
  - destruct body as [id|]; [|by left].
    destruct (decide (id = [])) as [->|Hid]; [by left|].
    revert Hok. rewrite validar_lookup by done.
    destruct (list_find _ ks) as [[i r]|]; [|by left].
    destruct (used r); [by left|].
    destruct (expired_at t_check r); [by left|]. simpl.
    intros [Hw _]%Forall_cons. simpl in Hw. subst ok. by right.
  - destruct (sweep_persists ks now ok) as [[Hk Hl]|[_ Hl]];
      rewrite Hl in *.
    + left. by rewrite Hk.
    + right. apply Forall_cons in Hok as [Hw _]. simpl in Hw. subst ok. done.
  - by left.
Qed.

(** X12. Write-through. Over any sequence of requests and sweeps served
    one after the other (each write done before the next request starts)
    whose file writes all succeed, keys.json follows the array: either nothing
    was written and the array is still the one loaded at start, or the last
    array written is the array in memory; so [loadKeys] after a restart
    gives back exactly the array the server held. *)
Theorem file_follows_memory MONETIZZY_TOKEN isValidUrl ks reqs :
  Forall write_ok (trace MONETIZZY_TOKEN isValidUrl ks reqs) →
  let now_in_memory := run MONETIZZY_TOKEN isValidUrl ks reqs in
  let on_disk :=
    default ks (last_written (trace MONETIZZY_TOKEN isValidUrl ks reqs)) in
  on_disk = now_in_memory
  ∧ (last_written (trace MONETIZZY_TOKEN isValidUrl ks reqs) = None →
     now_in_memory = ks)
  ∧ ∀ disk_ok, fst (loadKeys (Some (inr on_disk)) disk_ok) = now_in_memory.
Proof.
  intros Hok. unfold last_written, run.
  set (f := λ acc e, match e with WriteFile ks true => Some ks | _ => acc end).
  assert (∀ reqs ks0 ks acc,
    Forall write_ok (trace MONETIZZY_TOKEN isValidUrl ks reqs) →
    (acc = None ∧ ks = ks0) ∨ acc = Some ks →
    let acc' := foldl f acc (trace MONETIZZY_TOKEN isValidUrl ks reqs) in
    let ks' := foldl (step MONETIZZY_TOKEN isValidUrl) ks reqs in
    (acc' = None ∧ ks' = ks0) ∨ acc' = Some ks') as Hinv.
  { clear. intros reqs ks0. induction reqs as [|req reqs IH];
      intros ks acc Hok Hacc; [done|].
    simpl in *. apply Forall_app in Hok as [Hreq Hrest].
    rewrite foldl_app. apply IH; [done|].
    destruct (step_written _ _ _ _ Hreq) as [[-> Hsame]|Hnew].
    - by rewrite Hsame.
    - right. apply Hnew. }
  destruct (Hinv reqs ks ks None Hok) as [[E1 E2]|E1]; [by left|..];
    simpl in E1; rewrite E1; simpl.
  - by rewrite E2.
  - by split_and!.
Qed.

Lemma file_follows_memory_witness :
  let tok := lit "secret" in
  let req1 := ReqGerar (Some tok) (Some (lit "https://example.com/a"))
                (inr (Some (lit "https://ufly.monetizzy.com/abc")))
                1700000000000 [xab; xcd; x01; x23; x45; x67] 1700000000001
                true in
  let req2 := ReqValidar (Some (lit "loyw3v28-ABCD01234567"))
                1700000000002 1700000000003 true in
  last_written (trace tok (λ _, true) [] [req1; req2])
  = Some (run tok (λ _, true) [] [req1; req2]).
Proof.
  intros tok req1 req2.
  destruct (file_follows_memory tok (λ _, true) [] [req1; req2])
    as (H & _).
  - by repeat constructor.
  - reflexivity.
Defined.

(** ** The first draft and the full server *)

(** X15. On a non-empty key without surrounding white space, and unless
    it answers "expired", /validar of the full server answers as /validar
    of the first draft (not found, already used, valid, or 500 when the
    write fails); the two leave the same array up to the [usedAt] that only
    the full server stores, and either both write it or neither does. *)
Theorem full_server_agrees_with_draft ks k t_check t_used disk_ok :
  k ≠ [] → trim k = k →
  let o := validar ks (Some k) t_check t_used disk_ok in
  let d := validar_draft ks (Some k) disk_ok in
  resp o ≠ (200, KeyExpired) →
  draft_answer (resp o) = Some (resp d)
  ∧ without_usedAt <$> keys_after o = without_usedAt <$> keys_after d
  ∧ ((log o = [] ∧ log d = [])
     ∨ (log o = [WriteFile (keys_after o) disk_ok]
        ∧ log d = [WriteFile (keys_after d) disk_ok])).
Proof.
  intros Hk Htrim o d. subst o d. rewrite validar_lookup by done.
  unfold validar_draft. rewrite Htrim.
  destruct (list_find _ ks) as [[i r]|];
    [|intros _; split_and!; [done|done|by left]].
  destruct (used r); [intros _; split_and!; [done|done|by left]|].
  destruct (expired_at t_check r); [done|]. simpl. intros _.
  destruct disk_ok; simpl; (split_and!; [done| |by right]);
    by rewrite !list_fmap_insert.
Qed.

Lemma full_server_agrees_with_draft_witness :
  let k0 := mkKey (lit "0a1b2c3d-4e5f6a7b") false None None None None in
  resp (validar [k0] (Some (lit "0a1b2c3d-4e5f6a7b")) 2000 2001 true)
  = (200, KeyValid)
  ∧ draft_answer
      (resp (validar [k0] (Some (lit "0a1b2c3d-4e5f6a7b")) 2000 2001 true))
    = Some (resp (validar_draft [k0] (Some (lit "0a1b2c3d-4e5f6a7b")) true)).
Proof.
  intros k0. split; [reflexivity|].
  destruct (full_server_agrees_with_draft [k0] (lit "0a1b2c3d-4e5f6a7b")
              2000 2001 true) as (H & _); [done|reflexivity|done|].
  exact H.
Defined.

(** ** Ids of the draft and of the full server *)

Lemma hex_lower_shape bs :
  Forall (λ c, c ≠ 45%N) (hex_lower bs)
  ∧ length (hex_lower bs) = (2 * length bs)%nat.
Proof.
  assert (∀ d, hexdigit_lower d ≠ 45%N) as Hd.
  { intros d. unfold hexdigit_lower. destruct (N.ltb_spec d 10); lia. }
  induction bs as [|b bs [IH1 IH2]]; [by split|].
  unfold hex_lower in *. simpl. split; [|lia]. by repeat constructor.
Qed.

(** X16. An id made by the full server (six random bytes after the dash)
    is never an id made by the first draft (four random bytes after the
    dash): records of both kinds in one keys.json cannot be mistaken for
    one another. *)
Theorem draft_and_full_ids_differ now rnd rnd1 rnd2 :
  0 ≤ now → length rnd = 6%nat → length rnd2 = 4%nat →
  generateKey now rnd ≠ generateKey_draft rnd1 rnd2.
Proof.
  intros Hnow Hl Hl2 E. unfold generateKey, generateKey_draft in E.
  simpl in E. apply split_at_dash in E as [_ E].
  - apply (f_equal length) in E.
    destruct (hex_upper_shape rnd) as [_ H1].
    destruct (hex_lower_shape rnd2) as [_ H2]. lia.
  - unfold toString36. destruct (Z.ltb_spec now 0); [lia|].
    by apply digits36_no_dash.
  - apply hex_lower_shape.
Qed.

Lemma draft_and_full_ids_differ_witness :
  generateKey 1700000000000 [xab; xcd; x01; x23; x45; x67]
  ≠ generateKey_draft [x0a; x1b; x2c; x3d] [x4e; x5f; x6a; x7b].
Proof.
  apply draft_and_full_ids_differ; [lia|reflexivity|reflexivity].
Defined.

(** ** Expiry does not go away *)

(** X13. A key that /validar refuses as expired is refused as expired at
    every later clock reading too, as long as the array is the same: an
    expired key is not consumed and never becomes valid again. *)
Theorem expired_stays_expired ks body t_check t_used disk_ok t_check' t_used'
    disk_ok' :
  t_check ≤ t_check' →
  let o := validar ks body t_check t_used disk_ok in
  resp o = (200, KeyExpired) →
  keys_after o = ks
  ∧ validar (keys_after o) body t_check' t_used' disk_ok'
    = mkOutcome (200, KeyExpired) ks [].
Proof.
  intros Hle o. subst o.
  destruct body as [id|]; [|done].
  destruct (decide (id = [])) as [->|Hid]; [done|].
  rewrite validar_lookup by done.
  destruct (list_find _ ks) as [[i r]|] eqn:E; [|done].
  destruct (used r) eqn:Hu; [done|].
  destruct (expired_at t_check r) eqn:He; [|by destruct disk_ok].
  intros _. simpl. split; [done|].
  rewrite validar_lookup by done. rewrite E, Hu.
  apply expired_at_true in He as (c & Hc & Hc0 & Hlt).
  assert (expired_at t_check' r = true) as ->; [|done].
  apply expired_at_true. exists c. split_and!; [done|done|lia].
Qed.

Lemma expired_stays_expired_witness :
  let k0 := mkKey (lit "k") false (Some 1000) None None None in
  validar [k0] (Some (lit "k")) (5000 + DAY_MS) (5001 + DAY_MS) true
  = mkOutcome (200, KeyExpired) [k0] [].
Proof.
  intros k0.
  destruct (expired_stays_expired [k0] (Some (lit "k")) (1001 + DAY_MS)
              (1001 + DAY_MS) true (5000 + DAY_MS) (5001 + DAY_MS) true)
    as [_ H]; [lia|reflexivity|exact H].
Defined.
